(** * EEPROM-containers: persistent_queue and persistent_vector

    A shallow embedding of the two class templates of
    [src/persistent_queue.h] and [src/persistent_vector.h].  Both containers
    overlay a [storage_area] header and an array of [T] on the raw bytes
    returned by [EEPROM.getDataPtr()]; the embedding keeps that byte buffer as
    the only state, and every member function is a computation in a small
    state-and-failure monad over it. *)

From Stdlib Require Import NArith Lia.
From Stdlib Require Import Strings.Byte.
From stdpp Require Import base list.

Local Open Scope N_scope.

(** ** The target platform *)

Module Platform.

(** Modelled from the spec: the widths of [unsigned] and [std::size_t] and the
    byte order, which belong to the compiler target and not to the sources.
    The class comments name the ESP8266, a 32-bit little-endian core, and the
    spec has the mount step inspect 4 bytes as the signature. *)
Definition sizeof_unsigned : N := 4.
Definition sizeof_size_t : N := 4.

(** [unsigned] and [size_type] values live in [0, 2^32); [++] wraps. *)
Definition UINT_MOD : N := 2 ^ 32.
Definition wrap (v : N) : N := v mod UINT_MOD.

Definition byte_of_N (n : N) : byte :=
  match Byte.of_N (n mod 256) with
  | Some b => b
  | None => x00
  end.

(** Little-endian image of [v] on [w] bytes, and its inverse. *)
Fixpoint le_encode (w : nat) (v : N) : list byte :=
  match w with
  | O => []
  | S w' => byte_of_N v :: le_encode w' (v / 256)
  end.

Fixpoint le_decode (bs : list byte) : N :=
  match bs with
  | [] => 0
  | b :: bs' => Byte.to_N b + 256 * le_decode bs'
  end.

End Platform.

(** ** The EEPROM shadow buffer *)

(** [EEPROM.getDataPtr()] hands out a [uint8_t*] into a RAM copy of the flash
    sector.  The buffer is a list of bytes; an access that leaves it is
    undefined behaviour in the source and a failed computation here.  The
    alignment of an access is not modelled. *)
Module EEPROM.

Abbreviation buffer := (list byte).

(** Computations on the buffer: [None] is undefined behaviour. *)
Definition M (A : Type) : Type := buffer → option (A * buffer).

Definition ret {A} (a : A) : M A := λ m, Some (a, m).

Definition bind {A B} (c : M A) (k : A → M B) : M B :=
  λ m, match c m with
       | Some (a, m') => k a m'
       | None => None
       end.

Definition in_bounds (m : buffer) (a n : N) : bool :=
  a + n <=? N.of_nat (length m).

(** The bytes [a, a+n) of the buffer, and the buffer with [bs] laid over
    the bytes starting at [a]. *)
Definition peek (m : buffer) (a n : N) : list byte :=
  take (N.to_nat n) (drop (N.to_nat a) m).

Definition poke (m : buffer) (a : N) (bs : list byte) : buffer :=
  take (N.to_nat a) m ++ bs ++ drop (N.to_nat a + length bs)%nat m.

Definition load_bytes (a n : N) : M (list byte) :=
  λ m, if in_bounds m a n then Some (peek m a n, m) else None.

Definition store_bytes (a : N) (bs : list byte) : M unit :=
  λ m, if in_bounds m a (N.of_nat (length bs))
       then Some (tt, poke m a bs) else None.

(** Accesses through an [unsigned*] or [size_t*]. *)
Definition load_word (w : N) (a : N) : M N :=
  bind (load_bytes a w) (λ bs, ret (Platform.le_decode bs)).

Definition store_word (w : N) (a : N) (v : N) : M unit :=
  store_bytes a (Platform.le_encode (N.to_nat w) v).

Definition load_unsigned : N → M N := load_word Platform.sizeof_unsigned.
Definition store_unsigned : N → N → M unit :=
  store_word Platform.sizeof_unsigned.
Definition load_size_t : N → M N := load_word Platform.sizeof_size_t.
Definition store_size_t : N → N → M unit := store_word Platform.sizeof_size_t.

End EEPROM.

Notation "'let*' x ':=' c1 'in' c2" :=
  (EEPROM.bind c1 (λ x, c2))
  (at level 10, x binder, c1 at level 100, c2 at level 200, only parsing).
Notation "c1 ';;' c2" :=
  (EEPROM.bind c1 (λ _, c2))
  (at level 100, c2 at level 200, right associativity, only parsing).

(** ** Element types *)

(** The containers copy [T] in and out of raw bytes, so [T] has a fixed size
    and a byte image that determines the value. *)
Class Storable (T : Type) := {
  sizeof : N;
  to_bytes : T → list byte;
  of_bytes : list byte → T;
  sizeof_pos : 0 < sizeof;
  to_bytes_length : ∀ v, N.of_nat (length (to_bytes v)) = sizeof;
  of_to_bytes : ∀ v, of_bytes (to_bytes v) = v
}.

Definition load_T `{Storable T} (a : N) : EEPROM.M T :=
  let* bs := EEPROM.load_bytes a sizeof in EEPROM.ret (of_bytes bs).

Definition store_T `{Storable T} (a : N) (v : T) : EEPROM.M unit :=
  EEPROM.store_bytes a (to_bytes v).

(** [uint8_t] elements. *)
#[export] Instance uint8_storable : Storable byte := {|
  sizeof := 1;
  to_bytes := λ b, [b];
  of_bytes := λ bs, match bs with b :: _ => b | [] => x00 end;
  sizeof_pos := eq_refl;
  to_bytes_length := λ _, eq_refl;
  of_to_bytes := λ _, eq_refl
|}.

(** [struct { uint8_t lo, hi; }] elements: two bytes per slot. *)
#[export] Instance pair_storable : Storable (byte * byte) := {|
  sizeof := 2;
  to_bytes := λ p, [fst p; snd p];
  of_bytes := λ bs, match bs with
                    | lo :: hi :: _ => (lo, hi)
                    | _ => (x00, x00)
                    end;
  sizeof_pos := eq_refl;
  to_bytes_length := λ _, eq_refl;
  of_to_bytes := λ p, match p with (_, _) => eq_refl end
|}.

(** ** persistent_queue<T> *)

Module persistent_queue.
Section queue.
Context {T : Type} `{Storable T}.
Import EEPROM Platform.

(** The object itself: [capacity_] and the [storage_] pointer, kept as the
    byte position of the [storage_area] in the buffer. *)
Record handle := { capacity_ : N; storage_ : N }.

Definition SIGNATURE : N := 0xa2bedef9.

(** [struct storage_area { unsigned signature, begin, end; size_type size; }] *)
Definition signature_ofs : N := 0.
Definition begin_ofs : N := sizeof_unsigned.
Definition end_ofs : N := sizeof_unsigned + sizeof_unsigned.
Definition size_ofs : N := sizeof_unsigned + sizeof_unsigned + sizeof_unsigned.

(** [storage_area::data()] *)
Definition data (storage : N) : N :=
  storage + sizeof_unsigned + sizeof_unsigned + sizeof_unsigned + sizeof_size_t.

(** [&data()[idx]] *)
Definition slot (q : handle) (idx : N) : N := data (storage_ q) + idx * sizeof.

(** The constructor.  [offset] is an [int] in the source; a negative one
    points before the buffer, so only the natural ones are modelled. *)
Definition persistent_queue (offset : N) (capacity : N) : M handle :=
  let q := {| capacity_ := capacity; storage_ := offset |} in
  let* sig := load_unsigned (storage_ q + signature_ofs) in
  if negb (sig =? SIGNATURE) then
    store_unsigned (storage_ q + signature_ofs) SIGNATURE ;;
    store_unsigned (storage_ q + begin_ofs) 0 ;;
    store_unsigned (storage_ q + end_ofs) 0 ;;
    store_size_t (storage_ q + size_ofs) 0 ;;
    ret q
  else ret q.

(** The sum is computed in [size_type]. *)
Definition storage_size (capacity : N) : N :=
  wrap (sizeof_unsigned + sizeof_unsigned + sizeof_unsigned + sizeof_size_t
        + capacity * sizeof).

Definition size (q : handle) : M N := load_size_t (storage_ q + size_ofs).

Definition capacity (q : handle) : N := capacity_ q.

Definition empty (q : handle) : M bool :=
  let* s := size q in ret (s =? 0).

Definition full (q : handle) : M bool :=
  let* s := size q in ret (s =? capacity q).

(** [front()] hands out a reference; the model reads the value behind it. *)
Definition front (q : handle) : M T :=
  let* b := load_unsigned (storage_ q + begin_ofs) in
  load_T (slot q b).

(** [increment(unsigned& idx)]: the reference is the position of the field. *)
Definition increment (q : handle) (idx : N) : M unit :=
  let* i := load_unsigned idx in
  store_unsigned idx (wrap (i + 1)) ;;
  if wrap (i + 1) =? capacity_ q then store_unsigned idx 0 else ret tt.

(** Both overloads of [push] run the same statements. *)
Definition push (q : handle) (value : T) : M bool :=
  let* f := full q in
  if f then ret false
  else
    let* e := load_unsigned (storage_ q + end_ofs) in
    store_T (slot q e) value ;;
    increment q (storage_ q + end_ofs) ;;
    let* s := load_size_t (storage_ q + size_ofs) in
    store_size_t (storage_ q + size_ofs) (wrap (s + 1)) ;;
    ret true.

Definition pop (q : handle) : M bool :=
  let* e := empty q in
  if e then ret false
  else
    increment q (storage_ q + begin_ofs) ;;
    let* s := load_size_t (storage_ q + size_ofs) in
    store_size_t (storage_ q + size_ofs) (wrap (s + UINT_MOD - 1)) ;;
    ret true.

End queue.
End persistent_queue.

(** ** persistent_vector<T> *)

Module persistent_vector.
Section vector.
Context {T : Type} `{Storable T}.
Import EEPROM Platform.

Record handle := { capacity_ : N; storage_ : N }.

Definition SIGNATURE : N := 0xa2bedef9.

(** [struct storage_area { unsigned signature; size_type size; }] *)
Definition signature_ofs : N := 0.
Definition size_ofs : N := sizeof_unsigned.

Definition data (storage : N) : N := storage + sizeof_unsigned + sizeof_size_t.

Definition slot (v : handle) (pos : N) : N := data (storage_ v) + pos * sizeof.

(** The constructor, as for the queue. *)
Definition persistent_vector (offset : N) (capacity : N) : M handle :=
  let v := {| capacity_ := capacity; storage_ := offset |} in
  let* sig := load_unsigned (storage_ v + signature_ofs) in
  if negb (sig =? SIGNATURE) then
    store_unsigned (storage_ v + signature_ofs) SIGNATURE ;;
    store_size_t (storage_ v + size_ofs) 0 ;;
    ret v
  else ret v.

Definition storage_size (capacity : N) : N :=
  wrap (sizeof_unsigned + sizeof_size_t + capacity * sizeof).

Definition size (v : handle) : M N := load_size_t (storage_ v + size_ofs).

Definition capacity (v : handle) : N := capacity_ v.

Definition empty (v : handle) : M bool :=
  let* s := size v in ret (s =? 0).

Definition full (v : handle) : M bool :=
  let* s := size v in ret (s =? capacity v).

(** [operator[](pos)] *)
Definition subscript (v : handle) (pos : N) : M T := load_T (slot v pos).

Definition push_back (v : handle) (value : T) : M bool :=
  let* f := full v in
  if f then ret false
  else
    let* s := load_size_t (storage_ v + size_ofs) in
    store_T (slot v s) value ;;
    let* s' := load_size_t (storage_ v + size_ofs) in
    store_size_t (storage_ v + size_ofs) (wrap (s' + 1)) ;;
    ret true.

Definition pop_back (v : handle) : M bool :=
  let* e := empty v in
  if e then ret false
  else
    let* s := load_size_t (storage_ v + size_ofs) in
    store_size_t (storage_ v + size_ofs) (wrap (s + UINT_MOD - 1)) ;;
    ret true.

End vector.
End persistent_vector.

(** * Typed views of the buffer *)

Section views.
Import EEPROM Platform.

(** A range that lies inside the buffer. *)
Definition fits (m : buffer) (a n : N) : Prop := a + n ≤ N.of_nat (length m).

(** The [unsigned] (or [size_t]) stored at [a], and the buffer after
    assigning one. *)
Definition word_at (m : buffer) (a : N) : N :=
  le_decode (peek m a sizeof_unsigned).
Definition set_word (m : buffer) (a v : N) : buffer :=
  poke m a (le_encode (N.to_nat sizeof_unsigned) v).

Context {T : Type} `{Storable T}.

Definition value_at (m : buffer) (a : N) : T := of_bytes (peek m a sizeof).
Definition set_value (m : buffer) (a : N) (v : T) : buffer :=
  poke m a (to_bytes v).

End views.

(** * The queue seen through its header *)

Section queue_view.
Import EEPROM Platform.
Context {T : Type} `{Storable T}.

Definition q_signature (q : persistent_queue.handle) (m : buffer) : N :=
  word_at m (persistent_queue.storage_ q + persistent_queue.signature_ofs).
Definition q_begin (q : persistent_queue.handle) (m : buffer) : N :=
  word_at m (persistent_queue.storage_ q + persistent_queue.begin_ofs).
Definition q_end (q : persistent_queue.handle) (m : buffer) : N :=
  word_at m (persistent_queue.storage_ q + persistent_queue.end_ofs).
Definition q_size (q : persistent_queue.handle) (m : buffer) : N :=
  word_at m (persistent_queue.storage_ q + persistent_queue.size_ofs).
Definition q_slot (q : persistent_queue.handle) (m : buffer) (i : N) : T :=
  value_at m (persistent_queue.slot q i).

(** The header, one slot, and the whole footprint (header and [capacity]
    slots, the bytes [storage_size] counts) inside the buffer. *)
Definition q_header_fits (q : persistent_queue.handle) (m : buffer) : Prop :=
  fits m (persistent_queue.storage_ q) (persistent_queue.data 0).
Definition q_slot_fits (q : persistent_queue.handle) (m : buffer) (i : N) : Prop :=
  fits m (persistent_queue.slot q i) sizeof.
Definition q_region_fits (q : persistent_queue.handle) (m : buffer) : Prop :=
  fits m (persistent_queue.storage_ q)
       (persistent_queue.data 0 + persistent_queue.capacity_ q * sizeof).

(** The value [increment] leaves in the index it is given. *)
Definition next_index (q : persistent_queue.handle) (i : N) : N :=
  if wrap (i + 1) =? persistent_queue.capacity_ q then 0 else wrap (i + 1).

End queue_view.

(** * The vector seen through its header *)

Section vector_view.
Import EEPROM Platform.
Context {T : Type} `{Storable T}.

Definition v_signature (v : persistent_vector.handle) (m : buffer) : N :=
  word_at m (persistent_vector.storage_ v + persistent_vector.signature_ofs).
Definition v_size (v : persistent_vector.handle) (m : buffer) : N :=
  word_at m (persistent_vector.storage_ v + persistent_vector.size_ofs).
Definition v_slot (v : persistent_vector.handle) (m : buffer) (i : N) : T :=
  value_at m (persistent_vector.slot v i).

Definition v_header_fits (v : persistent_vector.handle) (m : buffer) : Prop :=
  fits m (persistent_vector.storage_ v) (persistent_vector.data 0).
Definition v_slot_fits (v : persistent_vector.handle) (m : buffer) (i : N) : Prop :=
  fits m (persistent_vector.slot v i) sizeof.
Definition v_region_fits (v : persistent_vector.handle) (m : buffer) : Prop :=
  fits m (persistent_vector.storage_ v)
       (persistent_vector.data 0 + persistent_vector.capacity_ v * sizeof).

Definition v_wf (v : persistent_vector.handle) (m : buffer) : Prop :=
  persistent_vector.capacity_ v < UINT_MOD ∧ v_region_fits v m.

(** The stored values: slots [0, size). *)
Definition v_contents (v : persistent_vector.handle) (m : buffer) : list T :=
  (λ k : nat, v_slot v m (N.of_nat k)) <$> seq 0 (N.to_nat (v_size v m)).

(** A client appending the values of a list one after the other. *)
Fixpoint v_push_all (v : persistent_vector.handle) (xs : list T)
  : M (list bool) :=
  match xs with
  | [] => ret []
  | x :: xs' =>
      let* ok := persistent_vector.push_back v x in
      let* oks := v_push_all v xs' in
      ret (ok :: oks)
  end.

End vector_view.

(** * The queue as a bounded FIFO *)

Section queue_model.
Import EEPROM Platform.
Context {T : Type} `{Storable T}.

(** What the constructor's arguments must satisfy: a non-degenerate
    capacity that is a [size_type] value, and the footprint inside the
    buffer. *)
Definition q_wf (q : persistent_queue.handle) (m : buffer) : Prop :=
  0 < persistent_queue.capacity_ q
  ∧ persistent_queue.capacity_ q < UINT_MOD
  ∧ q_region_fits q m.

Definition q_invariant (q : persistent_queue.handle) (m : buffer) : Prop :=
  q_size q m ≤ persistent_queue.capacity_ q
  ∧ q_begin q m < persistent_queue.capacity_ q
  ∧ q_end q m < persistent_queue.capacity_ q
  ∧ q_end q m = (q_begin q m + q_size q m) mod persistent_queue.capacity_ q.

(** The queued values, oldest first: [size] slots read circularly from
    [begin]. *)
Definition q_contents (q : persistent_queue.handle) (m : buffer) : list T :=
  (λ k : nat, q_slot q m ((q_begin q m + N.of_nat k)
                          mod persistent_queue.capacity_ q))
    <$> seq 0 (N.to_nat (q_size q m)).

(** Calls a client can make, what each returns, and a client that makes
    them one after the other. *)
Inductive q_call := Push (x : T) | Pop | Front.
Inductive q_result := Pushed (ok : bool) | Popped (ok : bool) | Fronted (x : T).

Definition q_do (q : persistent_queue.handle) (c : q_call) : M q_result :=
  match c with
  | Push x => let* ok := persistent_queue.push q x in ret (Pushed ok)
  | Pop => let* ok := persistent_queue.pop q in ret (Popped ok)
  | Front => let* x := persistent_queue.front q in ret (Fronted x)
  end.

Fixpoint q_run (q : persistent_queue.handle) (cs : list q_call)
  : M (list q_result) :=
  match cs with
  | [] => ret []
  | c :: cs' =>
      let* r := q_do q c in
      let* rs := q_run q cs' in
      ret (r :: rs)
  end.

(** The FIFO of the specification: a list bounded by the capacity, together
    with the index of its oldest element.  [front] of an empty queue has no
    specified value. *)
Record fifo := { oldest : N; items : list T }.

Definition fifo_do (cap : N) (s : fifo) (c : q_call) : option (q_result * fifo) :=
  match c with
  | Push x =>
      if N.of_nat (length (items s)) =? cap then Some (Pushed false, s)
      else Some (Pushed true, {| oldest := oldest s; items := items s ++ [x] |})
  | Pop =>
      match items s with
      | [] => Some (Popped false, s)
      | _ :: rest =>
          Some (Popped true, {| oldest := (oldest s + 1) mod cap; items := rest |})
      end
  | Front =>
      match items s with
      | [] => None
      | x :: _ => Some (Fronted x, s)
      end
  end.

Fixpoint fifo_run (cap : N) (s : fifo) (cs : list q_call)
  : option (list q_result * fifo) :=
  match cs with
  | [] => Some ([], s)
  | c :: cs' =>
      match fifo_do cap s c with
      | Some (r, s') =>
          match fifo_run cap s' cs' with
          | Some (rs, s'') => Some (r :: rs, s'')
          | None => None
          end
      | None => None
      end
  end.

(** The buffer holds the FIFO [s] for the handle [q]. *)
Definition q_models (q : persistent_queue.handle) (m : buffer) (s : fifo) : Prop :=
  q_invariant q m ∧ q_begin q m = oldest s ∧ q_contents q m = items s.

End queue_model.

Section fifo_calls.
Context {T : Type}.

(** The calls of the FIFO property: push every value, then look at the
    front and pop, once per value. *)
Definition push_all xs : list (@q_call T) := Push <$> xs.
Fixpoint drain (k : nat) : list (@q_call T) :=
  match k with
  | O => []
  | S k' => Front :: Pop :: drain k'
  end.

End fifo_calls.

(** * Reachable queue states *)

Section queue_reachable_states.
Import EEPROM Platform.
Context {T : Type} `{Storable T}.
Implicit Types (q : persistent_queue.handle) (m : buffer) (x : T).

(** The buffers a queue handle can see: the one its constructor leaves when
    it initialises a region without signature, and those any [push] or [pop]
    leaves afterwards. *)
Inductive q_reachable q (m0 : buffer) : buffer → Prop :=
| reach_mount m :
    q_signature q m0 ≠ persistent_queue.SIGNATURE →
    persistent_queue.persistent_queue
      (persistent_queue.storage_ q) (persistent_queue.capacity_ q) m0
    = Some (q, m) →
    q_reachable q m0 m
| reach_push m x r m' :
    q_reachable q m0 m →
    persistent_queue.push q x m = Some (r, m') →
    q_reachable q m0 m'
| reach_pop m r m' :
    q_reachable q m0 m →
    persistent_queue.pop q m = Some (r, m') →
    q_reachable q m0 m'.

(** The same for a vector handle, with [push_back] and [pop_back]. *)
Inductive v_reachable (v : persistent_vector.handle) (m0 : buffer)
  : buffer → Prop :=
| v_reach_mount m :
    v_signature v m0 ≠ persistent_vector.SIGNATURE →
    persistent_vector.persistent_vector
      (persistent_vector.storage_ v) (persistent_vector.capacity_ v) m0
    = Some (v, m) →
    v_reachable v m0 m
| v_reach_push_back m x r m' :
    v_reachable v m0 m →
    persistent_vector.push_back v x m = Some (r, m') →
    v_reachable v m0 m'
| v_reach_pop_back m r m' :
    v_reachable v m0 m →
    persistent_vector.pop_back v m = Some (r, m') →
    v_reachable v m0 m'.

End queue_reachable_states.

(** * Concrete buffers and handles *)

Section fixtures.
Import EEPROM.

(** An erased buffer of [n] bytes. *)
Definition blank (n : nat) : buffer := replicate n x00.

(** The signature as it lies in memory. *)
Definition magic : list byte := [xf9; xde; xbe; xa2].

Definition queue_at (offset capacity : N) : persistent_queue.handle :=
  {| persistent_queue.capacity_ := capacity;
     persistent_queue.storage_ := offset |}.

Definition vector_at (offset capacity : N) : persistent_vector.handle :=
  {| persistent_vector.capacity_ := capacity;
     persistent_vector.storage_ := offset |}.

End fixtures.

(** * Footprints, restarts and the vector as a bounded list *)

Section coverage_models.
Import EEPROM Platform.
Context {T : Type} `{Storable T}.

(** [m'] differs from [m] at most inside the byte range [a, a+n). *)
Definition same_outside (a n : N) (m m' : buffer) : Prop :=
  length m' = length m
  ∧ ∀ b k, b + k ≤ a ∨ a + n ≤ b → peek m' b k = peek m b k.

(** The bytes a container of the given capacity owns: header and slots. *)
Definition q_footprint (q : persistent_queue.handle) : N :=
  persistent_queue.data 0 + persistent_queue.capacity_ q * sizeof.
Definition v_footprint (v : persistent_vector.handle) : N :=
  persistent_vector.data 0 + persistent_vector.capacity_ v * sizeof.

(** A restart: the sketch builds its handle again, with the offset and the
    capacity it used before. *)
Definition q_restart (q : persistent_queue.handle) : M persistent_queue.handle :=
  persistent_queue.persistent_queue
    (persistent_queue.storage_ q) (persistent_queue.capacity_ q).
Definition v_restart (v : persistent_vector.handle) : M persistent_vector.handle :=
  persistent_vector.persistent_vector
    (persistent_vector.storage_ v) (persistent_vector.capacity_ v).

(** Calls a client of the vector can make, what each returns, and a client
    that makes them one after the other. *)
Inductive v_call :=
| PushBack (x : T) | PopBack | At (pos : N) | Size | Empty | Full.
Inductive v_result :=
| PushedBack (ok : bool) | PoppedBack (ok : bool) | Got (x : T)
| SizeIs (n : N) | EmptyIs (b : bool) | FullIs (b : bool).

Definition v_do (v : persistent_vector.handle) (c : v_call) : M v_result :=
  match c with
  | PushBack x => let* ok := persistent_vector.push_back v x in ret (PushedBack ok)
  | PopBack => let* ok := persistent_vector.pop_back v in ret (PoppedBack ok)
  | At pos => let* x := persistent_vector.subscript v pos in ret (Got x)
  | Size => let* n := persistent_vector.size v in ret (SizeIs n)
  | Empty => let* b := persistent_vector.empty v in ret (EmptyIs b)
  | Full => let* b := persistent_vector.full v in ret (FullIs b)
  end.

Fixpoint v_run (v : persistent_vector.handle) (cs : list v_call)
  : M (list v_result) :=
  match cs with
  | [] => ret []
  | c :: cs' =>
      let* r := v_do v c in
      let* rs := v_run v cs' in
      ret (r :: rs)
  end.

(** The list a vector stands for: appended to and truncated at its end, never
    longer than the capacity.  Reading a position the list does not have has
    no specified value. *)
Definition vec_do (cap : N) (l : list T) (c : v_call) : option (v_result * list T) :=
  match c with
  | PushBack x =>
      if N.of_nat (length l) =? cap then Some (PushedBack false, l)
      else Some (PushedBack true, l ++ [x])
  | PopBack =>
      match l with
      | [] => Some (PoppedBack false, l)
      | _ :: _ => Some (PoppedBack true, take (length l - 1) l)
      end
  | At pos =>
      match l !! N.to_nat pos with
      | Some x => Some (Got x, l)
      | None => None
      end
  | Size => Some (SizeIs (N.of_nat (length l)), l)
  | Empty => Some (EmptyIs (N.of_nat (length l) =? 0), l)
  | Full => Some (FullIs (N.of_nat (length l) =? cap), l)
  end.

Fixpoint vec_run (cap : N) (l : list T) (cs : list v_call)
  : option (list v_result * list T) :=
  match cs with
  | [] => Some ([], l)
  | c :: cs' =>
      match vec_do cap l c with
      | Some (r, l') =>
          match vec_run cap l' cs' with
          | Some (rs, l'') => Some (r :: rs, l'')
          | None => None
          end
      | None => None
      end
  end.

(** The buffer holds the list [l] for the handle [v]. *)
Definition v_models (v : persistent_vector.handle) (m : buffer) (l : list T) : Prop :=
  v_size v m ≤ persistent_vector.capacity_ v ∧ v_contents v m = l.

(** A region a queue handle may be built on, and the FIFO it then starts
    from: a region without the signature, which the constructor initialises
    to the empty FIFO; or a region with the signature whose header is a valid
    queue state for this capacity (for capacity 0: [size] is 0). *)
Definition q_mountable (q : persistent_queue.handle) (m : buffer) (s : fifo)
  : Prop :=
  (q_signature q m ≠ persistent_queue.SIGNATURE
   ∧ s = {| oldest := 0; items := [] |})
  ∨ (q_signature q m = persistent_queue.SIGNATURE
     ∧ ((0 < persistent_queue.capacity_ q ∧ q_models q m s)
        ∨ (persistent_queue.capacity_ q = 0 ∧ q_size q m = 0 ∧ items s = []))).

(** The same for a vector handle and the list it starts from: no signature
    and the empty list, or the signature and a valid vector state
    ([size ≤ capacity], the slots below [size] holding the list). *)
Definition v_mountable (v : persistent_vector.handle) (m : buffer) (l : list T)
  : Prop :=
  (v_signature v m ≠ persistent_vector.SIGNATURE ∧ l = [])
  ∨ (v_signature v m = persistent_vector.SIGNATURE ∧ v_models v m l).

End coverage_models.

(** * Proof automation *)

Ltac layout :=
  unfold q_header_fits, q_slot_fits, q_region_fits,
    q_signature, q_begin, q_end, q_size, q_slot,
    persistent_queue.slot, persistent_queue.data,
    persistent_queue.signature_ofs, persistent_queue.begin_ofs,
    persistent_queue.end_ofs, persistent_queue.size_ofs,
    persistent_queue.capacity,
    v_header_fits, v_slot_fits, v_region_fits, v_signature, v_size, v_slot,
    persistent_vector.slot, persistent_vector.data,
    persistent_vector.signature_ofs, persistent_vector.size_ofs,
    persistent_vector.capacity,
    Platform.sizeof_unsigned, Platform.sizeof_size_t, fits in *;
  cbn [persistent_queue.storage_ persistent_queue.capacity_
       persistent_vector.storage_ persistent_vector.capacity_] in *.

Ltac bounds := layout; first [ lia | nia ].

Ltac by_computation :=
  vm_compute; repeat split; first [ reflexivity | discriminate ].

(** * Facts about the platform encoding and the buffer *)

Section platform_facts.
Import Platform.

Lemma byte_of_N_to_N n : Byte.to_N (byte_of_N n) = n mod 256.
Proof.
  unfold byte_of_N. destruct (Byte.of_N (n mod 256)) as [b|] eqn:E.
  - by apply Byte.to_of_N.
  - apply Byte.of_N_None_iff in E.
    pose proof (N.mod_upper_bound n 256). lia.
Qed.

Lemma le_encode_length w v : length (le_encode w v) = w.
Proof. revert v. induction w; intros; simpl; auto. Qed.

Lemma le_decode_encode w v :
  le_decode (le_encode w v) = v mod 256 ^ N.of_nat w.
Proof.
  revert v. induction w as [|w IH]; intros v.
  - simpl. by rewrite N.mod_1_r.
  - cbn [le_encode le_decode]. rewrite byte_of_N_to_N, IH.
    rewrite Nat2N.inj_succ, N.pow_succ_r', N.Div0.mod_mul_r. done.
Qed.

Lemma le_decode_encode_word v :
  le_decode (le_encode (N.to_nat sizeof_unsigned) v) = wrap v.
Proof. by rewrite le_decode_encode. Qed.

Lemma wrap_small v : v < UINT_MOD → wrap v = v.
Proof. apply N.mod_small. Qed.

Lemma le_decode_lt bs : le_decode bs < 256 ^ N.of_nat (length bs).
Proof.
  induction bs as [|b bs IH]; cbn [le_decode length].
  - simpl. lia.
  - rewrite Nat2N.inj_succ, N.pow_succ_r'.
    pose proof (Byte.to_N_bounded b). lia.
Qed.

End platform_facts.

Section buffer_facts.
Import EEPROM.

Implicit Types (m : buffer) (a b n : N) (bs : list byte).

Lemma in_bounds_spec m a n :
  in_bounds m a n = true ↔ a + n ≤ N.of_nat (length m).
Proof. unfold in_bounds. apply N.leb_le. Qed.

Lemma poke_length m a bs :
  in_bounds m a (N.of_nat (length bs)) = true →
  length (poke m a bs) = length m.
Proof.
  rewrite in_bounds_spec. intros Hb. unfold poke.
  rewrite !length_app, length_take, length_drop. lia.
Qed.

Lemma peek_length m a n :
  in_bounds m a n = true → length (peek m a n) = N.to_nat n.
Proof.
  rewrite in_bounds_spec. intros Hb. unfold peek.
  rewrite length_take, length_drop. lia.
Qed.

Lemma poke_lookup_in m a bs i :
  in_bounds m a (N.of_nat (length bs)) = true →
  (i < length bs)%nat →
  poke m a bs !! (N.to_nat a + i)%nat = bs !! i.
Proof.
  rewrite in_bounds_spec. intros Hb Hi. unfold poke.
  rewrite lookup_app_r by (rewrite length_take; lia).
  rewrite length_take, lookup_app_l by lia. f_equal. lia.
Qed.

Lemma poke_lookup_out m a bs i :
  in_bounds m a (N.of_nat (length bs)) = true →
  (i < N.to_nat a ∨ N.to_nat a + length bs ≤ i)%nat →
  poke m a bs !! i = m !! i.
Proof.
  rewrite in_bounds_spec. intros Hb [Hi|Hi]; unfold poke.
  - rewrite lookup_app_l by (rewrite length_take; lia).
    by apply lookup_take_lt.
  - rewrite lookup_app_r by (rewrite length_take; lia).
    rewrite length_take, lookup_app_r by lia.
    rewrite lookup_drop. f_equal. lia.
Qed.

Lemma peek_lookup m a n i :
  (i < N.to_nat n)%nat → peek m a n !! i = m !! (N.to_nat a + i)%nat.
Proof.
  intros Hi. unfold peek. by rewrite lookup_take_lt, lookup_drop.
Qed.

Lemma peek_ext m m' a n :
  (∀ i, (i < N.to_nat n)%nat →
        m' !! (N.to_nat a + i)%nat = m !! (N.to_nat a + i)%nat) →
  peek m' a n = peek m a n.
Proof.
  intros Hext. apply list_eq. intros i.
  destruct (decide (i < N.to_nat n)%nat).
  - rewrite !peek_lookup by done. auto.
  - unfold peek. rewrite !lookup_take_ge by lia. done.
Qed.

(** Reading back what was just written. *)
Lemma peek_poke_same m a bs :
  in_bounds m a (N.of_nat (length bs)) = true →
  peek (poke m a bs) a (N.of_nat (length bs)) = bs.
Proof.
  intros Hb. apply list_eq. intros i.
  destruct (decide (i < length bs)%nat).
  - rewrite peek_lookup by lia. by apply poke_lookup_in.
  - unfold peek. rewrite lookup_take_ge by lia.
    symmetry. apply lookup_ge_None. lia.
Qed.

(** A write leaves every disjoint range as it was. *)
Lemma peek_poke_disjoint m a bs b n :
  in_bounds m a (N.of_nat (length bs)) = true →
  b + n ≤ a ∨ a + N.of_nat (length bs) ≤ b →
  peek (poke m a bs) b n = peek m b n.
Proof.
  intros Hb Hd. apply peek_ext. intros i Hi.
  apply poke_lookup_out; [done|]. lia.
Qed.

End buffer_facts.

(** * Facts about the typed views *)

Section view_facts.
Import EEPROM Platform.
Context {T : Type} `{Storable T}.
Implicit Types (m : buffer) (a b n v : N) (x : T).

Lemma fits_in_bounds m a n : fits m a n → in_bounds m a n = true.
Proof. intros. by apply in_bounds_spec. Qed.

Lemma in_bounds_fits m a n : in_bounds m a n = true → fits m a n.
Proof. intros. by apply in_bounds_spec. Qed.

Lemma bind_run {A B} (c : M A) (k : A → M B) m (r : A) m' :
  c m = Some (r, m') → bind c k m = k r m'.
Proof. unfold bind. by intros ->. Qed.

Lemma load_word_run m a :
  fits m a 4 → load_word 4 a m = Some (word_at m a, m).
Proof.
  intros Hf. unfold load_word, load_bytes, bind, ret.
  by rewrite fits_in_bounds.
Qed.

Lemma store_word_run m a v :
  fits m a 4 → store_word 4 a v m = Some (tt, set_word m a v).
Proof.
  intros Hf. unfold store_word, store_bytes.
  rewrite le_encode_length. by rewrite fits_in_bounds.
Qed.

Lemma load_T_run m a :
  fits m a sizeof → load_T a m = Some (value_at m a, m).
Proof.
  intros Hf. unfold load_T, load_bytes, bind, ret.
  by rewrite fits_in_bounds.
Qed.

Lemma store_T_run m a x :
  fits m a sizeof → store_T a x m = Some (tt, set_value m a x).
Proof.
  intros Hf. unfold store_T, store_bytes.
  rewrite to_bytes_length. by rewrite fits_in_bounds.
Qed.

(** A load never changes the buffer. *)
Lemma load_word_pure w a m r m' : load_word w a m = Some (r, m') → m' = m.
Proof.
  unfold load_word, load_bytes, bind, ret.
  destruct (in_bounds m a w); congruence.
Qed.

Lemma set_word_length m a v :
  fits m a 4 → length (set_word m a v) = length m.
Proof.
  intros Hf. apply poke_length. rewrite le_encode_length.
  by apply fits_in_bounds.
Qed.

Lemma set_value_length m a x :
  fits m a sizeof → length (set_value m a x) = length m.
Proof.
  intros Hf. apply poke_length. rewrite to_bytes_length.
  by apply fits_in_bounds.
Qed.

Lemma peek_set_word m a v b n :
  fits m a 4 → b + n ≤ a ∨ a + 4 ≤ b →
  peek (set_word m a v) b n = peek m b n.
Proof.
  intros Hf Hd. apply peek_poke_disjoint; rewrite le_encode_length.
  - by apply fits_in_bounds.
  - done.
Qed.

Lemma peek_set_value m a x b n :
  fits m a sizeof → b + n ≤ a ∨ a + sizeof ≤ b →
  peek (set_value m a x) b n = peek m b n.
Proof.
  intros Hf Hd. apply peek_poke_disjoint; rewrite to_bytes_length.
  - by apply fits_in_bounds.
  - done.
Qed.

Lemma word_at_set_word m a v :
  fits m a 4 → word_at (set_word m a v) a = wrap v.
Proof.
  intros Hf. unfold word_at, set_word.
  replace sizeof_unsigned
    with (N.of_nat (length (le_encode (N.to_nat sizeof_unsigned) v)))
    at 1 by (by rewrite le_encode_length).
  rewrite peek_poke_same.
  - apply le_decode_encode_word.
  - rewrite le_encode_length. by apply fits_in_bounds.
Qed.

Lemma word_at_set_word_ne m a v b :
  fits m a 4 → b + 4 ≤ a ∨ a + 4 ≤ b →
  word_at (set_word m a v) b = word_at m b.
Proof. intros Hf Hd. unfold word_at. by rewrite peek_set_word. Qed.

Lemma word_at_set_value m a x b :
  fits m a sizeof → b + 4 ≤ a ∨ a + sizeof ≤ b →
  word_at (set_value m a x) b = word_at m b.
Proof. intros Hf Hd. unfold word_at. by rewrite peek_set_value. Qed.

Lemma value_at_set_value m a x :
  fits m a sizeof → value_at (set_value m a x) a = x.
Proof.
  intros Hf. unfold value_at, set_value.
  rewrite <- (to_bytes_length x) at 1.
  rewrite peek_poke_same.
  - apply of_to_bytes.
  - rewrite to_bytes_length. by apply fits_in_bounds.
Qed.

Lemma value_at_set_value_ne m a x b :
  fits m a sizeof → b + sizeof ≤ a ∨ a + sizeof ≤ b →
  value_at (set_value m a x) b = value_at m b.
Proof. intros Hf Hd. unfold value_at. by rewrite peek_set_value. Qed.

Lemma value_at_set_word m a v b :
  fits m a 4 → b + sizeof ≤ a ∨ a + 4 ≤ b →
  value_at (set_word m a v) b = value_at m b.
Proof. intros Hf Hd. unfold value_at. by rewrite peek_set_word. Qed.

Lemma word_at_lt m a : fits m a 4 → word_at m a < UINT_MOD.
Proof.
  intros Hf. unfold word_at.
  pose proof (le_decode_lt (peek m a sizeof_unsigned)) as Hlt.
  rewrite peek_length in Hlt by (by apply fits_in_bounds). exact Hlt.
Qed.

End view_facts.

Ltac mstep lem := erewrite bind_run by (apply lem; bounds); cbv beta.

(** * The queue, step by step *)

Section queue_runs.
Import EEPROM Platform.
Context {T : Type} `{Storable T}.
Implicit Types (q : persistent_queue.handle) (m : buffer) (x : T).

Lemma load_unsigned_run m a :
  fits m a 4 → load_unsigned a m = Some (word_at m a, m).
Proof. apply load_word_run. Qed.

Lemma load_size_t_run m a :
  fits m a 4 → load_size_t a m = Some (word_at m a, m).
Proof. apply load_word_run. Qed.

Lemma store_unsigned_run m a v :
  fits m a 4 → store_unsigned a v m = Some (tt, set_word m a v).
Proof. apply store_word_run. Qed.

Lemma store_size_t_run m a v :
  fits m a 4 → store_size_t a v m = Some (tt, set_word m a v).
Proof. apply store_word_run. Qed.

(** [storage_size] is the footprint whenever that is a [size_type] value. *)
Lemma q_storage_size_exact (capacity : N) :
  persistent_queue.data 0 + capacity * sizeof < UINT_MOD →
  persistent_queue.storage_size capacity
  = persistent_queue.data 0 + capacity * sizeof.
Proof.
  intros Hlt. unfold persistent_queue.storage_size.
  rewrite wrap_small; [done|exact Hlt].
Qed.

Lemma q_size_run q m :
  q_header_fits q m →
  persistent_queue.size q m = Some (q_size q m, m).
Proof. intros Hh. apply load_size_t_run. bounds. Qed.

Lemma q_empty_run q m :
  q_header_fits q m →
  persistent_queue.empty q m = Some (q_size q m =? 0, m).
Proof.
  intros Hh. unfold persistent_queue.empty.
  erewrite bind_run by (by apply q_size_run). done.
Qed.

Lemma q_full_run q m :
  q_header_fits q m →
  persistent_queue.full q m
  = Some (q_size q m =? persistent_queue.capacity_ q, m).
Proof.
  intros Hh. unfold persistent_queue.full.
  erewrite bind_run by (by apply q_size_run). done.
Qed.

Lemma q_full_pure q m (b : bool) m' :
  persistent_queue.full q m = Some (b, m') → m' = m.
Proof.
  unfold persistent_queue.full, persistent_queue.size, load_size_t, bind, ret.
  destruct (load_word _ _ m) as [[s m1]|] eqn:E; [|done].
  apply load_word_pure in E. congruence.
Qed.

Lemma q_empty_pure q m (b : bool) m' :
  persistent_queue.empty q m = Some (b, m') → m' = m.
Proof.
  unfold persistent_queue.empty, persistent_queue.size, load_size_t, bind, ret.
  destruct (load_word _ _ m) as [[s m1]|] eqn:E; [|done].
  apply load_word_pure in E. congruence.
Qed.

Lemma q_front_run q m :
  q_header_fits q m → q_slot_fits q m (q_begin q m) →
  persistent_queue.front q m = Some (q_slot q m (q_begin q m), m).
Proof.
  intros Hh Hs. unfold persistent_queue.front.
  mstep load_unsigned_run. apply load_T_run. exact Hs.
Qed.

(** [increment] rewrites the one index and nothing else. *)
Lemma q_increment_run q idx m :
  fits m idx 4 →
  ∃ m', persistent_queue.increment q idx m = Some (tt, m')
        ∧ length m' = length m
        ∧ word_at m' idx = next_index q (word_at m idx)
        ∧ ∀ b n, b + n ≤ idx ∨ idx + 4 ≤ b → peek m' b n = peek m b n.
Proof.
  intros Hf. unfold persistent_queue.increment, next_index.
  set (i := word_at m idx).
  set (m1 := set_word m idx (wrap (i + 1))).
  assert (length m1 = length m) as Hl1 by (by apply set_word_length).
  assert (fits m1 idx 4) as Hf1 by bounds.
  mstep load_unsigned_run. fold i.
  mstep store_unsigned_run. fold m1.
  destruct (wrap (i + 1) =? persistent_queue.capacity_ q) eqn:E.
  - exists (set_word m1 idx 0). split; [by apply store_unsigned_run|].
    split; [by rewrite set_word_length|]. split.
    + by rewrite word_at_set_word.
    + intros b n Hd. subst m1. by rewrite !peek_set_word.
  - exists m1. split; [done|]. split; [done|]. split.
    + subst m1. rewrite word_at_set_word by done.
      unfold wrap. by rewrite N.Div0.mod_mod.
    + intros b n Hd. subst m1. by rewrite peek_set_word.
Qed.

End queue_runs.

Section queue_steps.
Import EEPROM Platform.
Context {T : Type} `{Storable T}.
Implicit Types (q : persistent_queue.handle) (m : buffer) (x : T).

Lemma q_push_full q m x :
  q_header_fits q m → q_size q m = persistent_queue.capacity_ q →
  persistent_queue.push q x m = Some (false, m).
Proof.
  intros Hh Hs. unfold persistent_queue.push.
  mstep q_full_run. by rewrite Hs, N.eqb_refl.
Qed.

Lemma q_push_run q m x :
  q_header_fits q m → q_slot_fits q m (q_end q m) →
  q_size q m ≠ persistent_queue.capacity_ q →
  ∃ m', persistent_queue.push q x m = Some (true, m')
        ∧ length m' = length m
        ∧ q_signature q m' = q_signature q m
        ∧ q_begin q m' = q_begin q m
        ∧ q_end q m' = next_index q (q_end q m)
        ∧ q_size q m' = wrap (q_size q m + 1)
        ∧ q_slot q m' (q_end q m) = x
        ∧ ∀ i, i ≠ q_end q m → q_slot q m' i = q_slot q m i.
Proof.
  intros Hh He Hs.
  set (e := q_end q m) in *. set (s := q_size q m) in *.
  set (m1 := set_value m (persistent_queue.slot q e) x).
  assert (length m1 = length m) as Hl1 by (by apply set_value_length).
  destruct (q_increment_run q
              (persistent_queue.storage_ q + persistent_queue.end_ofs) m1)
    as (m2 & Hinc & Hl2 & Hend & Hfr); [bounds|].
  set (m3 := set_word m2
               (persistent_queue.storage_ q + persistent_queue.size_ofs)
               (wrap (s + 1))).
  assert (length m3 = length m2) as Hl3 by (apply set_word_length; bounds).
  assert (∀ a, a + 4 ≤ persistent_queue.storage_ q + 8 → word_at m1 a = word_at m a)
    as Hw1.
  { intros a Ha. apply word_at_set_value; bounds. }
  assert (word_at m1 (persistent_queue.storage_ q + persistent_queue.size_ofs) = s) as Hs1.
  { subst s. unfold q_size. apply word_at_set_value; bounds. }
  assert (word_at m1 (persistent_queue.storage_ q + persistent_queue.end_ofs) = e) as He1.
  { subst e. unfold q_end. apply word_at_set_value; bounds. }
  assert (word_at m2 (persistent_queue.storage_ q + persistent_queue.size_ofs) = s) as Hs2.
  { rewrite <- Hs1. unfold word_at. f_equal. apply Hfr. bounds. }
  exists m3. repeat split.
  - unfold persistent_queue.push.
    mstep q_full_run. fold s.
    apply N.eqb_neq in Hs. rewrite Hs.
    mstep load_unsigned_run. fold (q_end q m). fold e. fold m1.
    mstep store_T_run. fold m1.
    erewrite bind_run by exact Hinc. cbv beta.
    mstep load_size_t_run. rewrite Hs2.
    mstep store_size_t_run. done.
  - lia.
  - unfold q_signature. subst m3.
    rewrite word_at_set_word_ne by bounds.
    rewrite <- Hw1 by bounds. unfold word_at. f_equal. apply Hfr. bounds.
  - unfold q_begin. subst m3.
    rewrite word_at_set_word_ne by bounds.
    rewrite <- Hw1 by bounds. unfold word_at. f_equal. apply Hfr. bounds.
  - unfold q_end at 1. subst m3.
    rewrite word_at_set_word_ne by bounds.
    rewrite Hend. f_equal. exact He1.
  - unfold q_size at 1. subst m3.
    rewrite word_at_set_word by bounds. unfold wrap. by rewrite N.Div0.mod_mod.
  - unfold q_slot. subst m3. rewrite value_at_set_word by bounds.
    unfold value_at. rewrite Hfr by bounds.
    subst m1. apply value_at_set_value. exact He.
  - intros i Hi. unfold q_slot. subst m3.
    rewrite value_at_set_word by bounds.
    unfold value_at. rewrite Hfr by bounds.
    subst m1. fold (value_at (set_value m (persistent_queue.slot q e) x)
                             (persistent_queue.slot q i)).
    apply value_at_set_value_ne; [exact He|].
    pose proof sizeof_pos. bounds.
Qed.

Lemma q_pop_empty q m :
  q_header_fits q m → q_size q m = 0 →
  persistent_queue.pop q m = Some (false, m).
Proof.
  intros Hh Hs. unfold persistent_queue.pop.
  mstep q_empty_run. by rewrite Hs.
Qed.

Lemma q_pop_run q m :
  q_header_fits q m → q_size q m ≠ 0 →
  ∃ m', persistent_queue.pop q m = Some (true, m')
        ∧ length m' = length m
        ∧ q_signature q m' = q_signature q m
        ∧ q_begin q m' = next_index q (q_begin q m)
        ∧ q_end q m' = q_end q m
        ∧ q_size q m' = wrap (q_size q m + UINT_MOD - 1)
        ∧ ∀ i, q_slot q m' i = q_slot q m i.
Proof.
  intros Hh Hs. set (s := q_size q m) in *.
  destruct (q_increment_run q
              (persistent_queue.storage_ q + persistent_queue.begin_ofs) m)
    as (m2 & Hinc & Hl2 & Hbeg & Hfr); [bounds|].
  set (m3 := set_word m2
               (persistent_queue.storage_ q + persistent_queue.size_ofs)
               (wrap (s + UINT_MOD - 1))).
  assert (length m3 = length m2) as Hl3 by (apply set_word_length; bounds).
  assert (word_at m2 (persistent_queue.storage_ q + persistent_queue.size_ofs) = s) as Hs2.
  { subst s. unfold q_size, word_at. f_equal. apply Hfr. bounds. }
  exists m3. repeat split.
  - unfold persistent_queue.pop.
    mstep q_empty_run. fold s. apply N.eqb_neq in Hs. rewrite Hs.
    erewrite bind_run by exact Hinc. cbv beta.
    mstep load_size_t_run. rewrite Hs2.
    mstep store_size_t_run. done.
  - lia.
  - unfold q_signature. subst m3. rewrite word_at_set_word_ne by bounds.
    unfold word_at. f_equal. apply Hfr. bounds.
  - unfold q_begin at 1. subst m3. rewrite word_at_set_word_ne by bounds.
    exact Hbeg.
  - unfold q_end. subst m3. rewrite word_at_set_word_ne by bounds.
    unfold word_at. f_equal. apply Hfr. bounds.
  - unfold q_size at 1. subst m3. rewrite word_at_set_word by bounds.
    unfold wrap. by rewrite N.Div0.mod_mod.
  - intros i. unfold q_slot. subst m3. rewrite value_at_set_word by bounds.
    unfold value_at. f_equal. apply Hfr. bounds.
Qed.

End queue_steps.

Section queue_mount.
Import EEPROM Platform.
Context {T : Type} `{Storable T}.
Implicit Types (q : persistent_queue.handle) (m : buffer).

Lemma q_mount_reuse q m :
  fits m (persistent_queue.storage_ q) 4 →
  q_signature q m = persistent_queue.SIGNATURE →
  persistent_queue.persistent_queue
    (persistent_queue.storage_ q) (persistent_queue.capacity_ q) m
  = Some (q, m).
Proof.
  intros Hf Hsig. unfold persistent_queue.persistent_queue.
  destruct q as [cap offset]. cbn [persistent_queue.storage_] in *.
  mstep load_unsigned_run.
  unfold q_signature in Hsig. cbn [persistent_queue.storage_] in Hsig.
  by rewrite Hsig, N.eqb_refl.
Qed.

Lemma q_mount_init q m :
  q_header_fits q m → q_signature q m ≠ persistent_queue.SIGNATURE →
  ∃ m', persistent_queue.persistent_queue
          (persistent_queue.storage_ q) (persistent_queue.capacity_ q) m
        = Some (q, m')
        ∧ length m' = length m
        ∧ q_signature q m' = persistent_queue.SIGNATURE
        ∧ q_begin q m' = 0 ∧ q_end q m' = 0 ∧ q_size q m' = 0
        ∧ ∀ b n, b + n ≤ persistent_queue.storage_ q
                 ∨ persistent_queue.data (persistent_queue.storage_ q) ≤ b →
                 peek m' b n = peek m b n.
Proof.
  intros Hh Hsig. destruct q as [cap offset].
  unfold q_header_fits, q_signature, q_begin, q_end, q_size in *.
  cbn [persistent_queue.storage_ persistent_queue.capacity_] in *.
  set (m1 := set_word m (offset + persistent_queue.signature_ofs)
               persistent_queue.SIGNATURE).
  set (m2 := set_word m1 (offset + persistent_queue.begin_ofs) 0).
  set (m3 := set_word m2 (offset + persistent_queue.end_ofs) 0).
  set (m4 := set_word m3 (offset + persistent_queue.size_ofs) 0).
  assert (length m1 = length m) as Hl1 by (apply set_word_length; bounds).
  assert (length m2 = length m1) as Hl2 by (apply set_word_length; bounds).
  assert (length m3 = length m2) as Hl3 by (apply set_word_length; bounds).
  assert (length m4 = length m3) as Hl4 by (apply set_word_length; bounds).
  exists m4. repeat split.
  - unfold persistent_queue.persistent_queue.
    cbn [persistent_queue.storage_].
    mstep load_unsigned_run.
    apply N.eqb_neq in Hsig. rewrite Hsig. cbn [negb].
    mstep store_unsigned_run. fold m1.
    mstep store_unsigned_run. fold m2.
    mstep store_unsigned_run. fold m3.
    mstep store_size_t_run. done.
  - lia.
  - subst m4 m3 m2 m1.
    rewrite !word_at_set_word_ne by bounds.
    by rewrite word_at_set_word by bounds.
  - subst m4 m3 m2.
    rewrite !word_at_set_word_ne by bounds.
    by rewrite word_at_set_word by bounds.
  - subst m4 m3.
    rewrite !word_at_set_word_ne by bounds.
    by rewrite word_at_set_word by bounds.
  - subst m4.
    by rewrite word_at_set_word by bounds.
  - intros b n Hd. subst m4 m3 m2 m1.
    rewrite !peek_set_word by bounds. done.
Qed.

End queue_mount.

(** * The queue refines the FIFO *)

Section queue_model_facts.
Import EEPROM Platform.
Context {T : Type} `{Storable T}.
Implicit Types (q : persistent_queue.handle) (m : buffer) (x : T).

Lemma mod_wrap_once b k c :
  b < c → k ≤ c →
  (b + k) mod c = if b + k <? c then b + k else b + k - c.
Proof.
  intros Hb Hk. destruct (b + k <? c) eqn:E.
  - apply N.ltb_lt in E. by apply N.mod_small.
  - apply N.ltb_ge in E.
    symmetry. apply (N.mod_unique _ _ 1); lia.
Qed.

Lemma next_index_mod q i :
  persistent_queue.capacity_ q < UINT_MOD → i < persistent_queue.capacity_ q →
  next_index q i = (i + 1) mod persistent_queue.capacity_ q.
Proof.
  intros Hc Hi. unfold next_index.
  rewrite wrap_small by lia.
  rewrite mod_wrap_once by lia.
  destruct (i + 1 =? persistent_queue.capacity_ q) eqn:E.
  - apply N.eqb_eq in E. rewrite <- E, N.ltb_irrefl. lia.
  - apply N.eqb_neq in E.
    destruct (i + 1 <? persistent_queue.capacity_ q) eqn:E2; [done|].
    apply N.ltb_ge in E2. lia.
Qed.

Lemma q_contents_length q m :
  length (q_contents q m) = N.to_nat (q_size q m).
Proof. unfold q_contents. by rewrite length_fmap, length_seq. Qed.

Lemma q_wf_header q m : q_wf q m → q_header_fits q m.
Proof. intros (? & ? & ?). bounds. Qed.

Lemma q_wf_slot q m i :
  q_wf q m → i < persistent_queue.capacity_ q → q_slot_fits q m i.
Proof. intros (? & ? & ?) Hi. bounds. Qed.

Lemma q_wf_length q m m' : length m' = length m → q_wf q m → q_wf q m'.
Proof. intros Hl (? & ? & ?). repeat split; [done..|]. bounds. Qed.

End queue_model_facts.

Section queue_simulation.
Import EEPROM Platform.
Context {T : Type} `{Storable T}.
Implicit Types (q : persistent_queue.handle) (m : buffer) (x : T) (s : @fifo T).

Lemma q_models_size q m s :
  q_models q m s → q_size q m = N.of_nat (length (items s)).
Proof.
  intros (_ & _ & Hc). rewrite <- Hc, q_contents_length. lia.
Qed.

Lemma q_push_models q m s x :
  q_wf q m → q_models q m s →
  N.of_nat (length (items s)) ≠ persistent_queue.capacity_ q →
  ∃ m', persistent_queue.push q x m = Some (true, m')
        ∧ length m' = length m
        ∧ q_signature q m' = q_signature q m
        ∧ q_models q m' {| oldest := oldest s; items := items s ++ [x] |}.
Proof.
  intros Hwf Hm Hlen.
  pose proof (q_models_size _ _ _ Hm) as Hsz.
  destruct Hm as ((Hs & Hb & He & Heq) & Hold & Hc).
  destruct Hwf as (Hc0 & Hc1 & Hfit).
  destruct (q_push_run q m x)
    as (m' & Hrun & Hl & Hsig & Hb' & He' & Hs' & Hx & Hothers).
  { bounds. } { bounds. } { lia. }
  exists m'. split; [done|]. split; [done|]. split; [done|].
  rewrite next_index_mod in He' by done.
  rewrite wrap_small in Hs' by lia.
  split; [|split].
  - repeat split.
    + lia.
    + by rewrite Hb'.
    + rewrite He'. by apply N.mod_upper_bound; lia.
    + rewrite He', Hb', Hs', Heq, N.add_assoc.
      rewrite N.Div0.add_mod_idemp_l. done.
  - by rewrite Hb'.
  - cbn [items]. rewrite <- Hc. unfold q_contents.
    rewrite Hs', Hb'.
    replace (N.to_nat (q_size q m + 1)) with (S (N.to_nat (q_size q m))) by lia.
    rewrite seq_S, fmap_app. cbn [fmap list_fmap Nat.add]. f_equal.
    + apply list_fmap_ext. intros i k Hk.
      apply lookup_seq in Hk as [-> Hk]. apply Hothers.
      rewrite Heq. rewrite !mod_wrap_once by lia.
      repeat case_match; rewrite ?N.ltb_lt, ?N.ltb_ge in *; lia.
    + f_equal. rewrite N2Nat.id, <- Heq. done.
Qed.

Lemma q_pop_models q m s x rest :
  q_wf q m → q_models q m s → items s = x :: rest →
  persistent_queue.front q m = Some (x, m)
  ∧ ∃ m', persistent_queue.pop q m = Some (true, m')
          ∧ length m' = length m
          ∧ q_signature q m' = q_signature q m
          ∧ q_models q m'
              {| oldest := (oldest s + 1) mod persistent_queue.capacity_ q;
                 items := rest |}.
Proof.
  intros Hwf Hm Hit.
  pose proof (q_models_size _ _ _ Hm) as Hsz.
  rewrite Hit in Hsz. cbn [length] in Hsz.
  destruct Hm as ((Hs & Hb & He & Heq) & Hold & Hc).
  pose proof (q_wf_header _ _ Hwf) as Hh.
  pose proof (q_wf_slot _ _ _ Hwf Hb) as Hsl.
  destruct Hwf as (Hc0 & Hc1 & Hfit).
  assert (q_contents q m = q_slot q m (q_begin q m)
            :: ((λ k : nat, q_slot q m ((q_begin q m + 1 + N.of_nat k)
                              mod persistent_queue.capacity_ q))
                  <$> seq 0 (length rest))) as Hsplit.
  { unfold q_contents.
    replace (N.to_nat (q_size q m)) with (S (length rest)) by lia.
    cbn [seq fmap list_fmap]. f_equal.
    - f_equal. rewrite N.add_0_r. by apply N.mod_small.
    - rewrite <- fmap_S_seq, <- list_fmap_compose.
      apply list_fmap_ext. intros i k _. cbn. do 2 f_equal. lia. }
  rewrite Hc, Hit in Hsplit. injection Hsplit as Hx Hrest.
  split.
  { rewrite q_front_run by done. by rewrite <- Hx. }
  destruct (q_pop_run q m) as (m' & Hrun & Hl & Hsig & Hb' & He' & Hs' & Hslots).
  { done. } { lia. }
  exists m'. split; [done|]. split; [done|]. split; [done|].
  rewrite next_index_mod in Hb' by done.
  assert (q_size q m' = q_size q m - 1) as Hs''.
  { rewrite Hs'. unfold wrap.
    replace (q_size q m + UINT_MOD - 1) with (q_size q m - 1 + 1 * UINT_MOD) by lia.
    rewrite N.Div0.mod_add. apply N.mod_small. lia. }
  split; [|split].
  - repeat split.
    + lia.
    + rewrite Hb'. apply N.mod_upper_bound. lia.
    + by rewrite He'.
    + rewrite He', Hb', Hs'', Heq.
      rewrite N.Div0.add_mod_idemp_l. f_equal. lia.
  - cbn [oldest]. by rewrite Hb', Hold.
  - cbn [items]. rewrite Hrest. unfold q_contents.
    rewrite Hs'', Hb'.
    replace (N.to_nat (q_size q m - 1)) with (length rest) by lia.
    apply list_fmap_ext. intros i k _. rewrite Hslots. f_equal.
    by rewrite N.Div0.add_mod_idemp_l.
Qed.

(** Every call sequence the FIFO of the specification admits runs on the
    buffer without leaving it, returns what the FIFO returns, and leaves
    the buffer holding the FIFO's final state. *)
Lemma q_run_refines q cs : ∀ m s rs s',
  q_wf q m → q_models q m s →
  fifo_run (persistent_queue.capacity_ q) s cs = Some (rs, s') →
  ∃ m', q_run q cs m = Some (rs, m')
        ∧ length m' = length m
        ∧ q_signature q m' = q_signature q m
        ∧ q_models q m' s'.
Proof.
  induction cs as [|c cs IH]; intros m s rs s' Hwf Hm Hrun.
  - injection Hrun as <- <-. by exists m.
  - cbn [fifo_run] in Hrun.
    destruct (fifo_do _ s c) as [[r s1]|] eqn:Hdo; [|done].
    destruct (fifo_run _ s1 cs) as [[rs1 s2]|] eqn:Hrest; [|done].
    injection Hrun as <- <-.
    assert (∃ m1, q_do q c m = Some (r, m1) ∧ length m1 = length m
                  ∧ q_signature q m1 = q_signature q m
                  ∧ q_models q m1 s1) as (m1 & Hstep & Hl1 & Hsig1 & Hm1).
    { destruct c as [x| |]; cbn [fifo_do q_do] in *.
      - destruct (N.of_nat (length (items s)) =? _) eqn:E.
        + injection Hdo as <- <-. apply N.eqb_eq in E.
          exists m. split; [|done].
          erewrite bind_run; [done|]. apply q_push_full.
          * by apply q_wf_header.
          * by rewrite (q_models_size _ _ _ Hm).
        + injection Hdo as <- <-. apply N.eqb_neq in E.
          destruct (q_push_models q m s x) as (m1 & ? & ? & ? & ?); [done..|].
          exists m1. split; [|done]. by erewrite bind_run.
      - destruct (items s) as [|x rest] eqn:Hit.
        + injection Hdo as <- <-. exists m. split; [|done].
          erewrite bind_run; [done|]. apply q_pop_empty.
          * by apply q_wf_header.
          * rewrite (q_models_size _ _ _ Hm), Hit. done.
        + injection Hdo as <- <-.
          destruct (q_pop_models q m s x rest) as (_ & m1 & ? & ? & ? & ?);
            [done..|].
          exists m1. split; [|done]. by erewrite bind_run.
      - destruct (items s) as [|x rest] eqn:Hit; [done|].
        injection Hdo as <- <-.
        destruct (q_pop_models q m s x rest) as (Hfront & _); [done..|].
        exists m. split; [|done]. by erewrite bind_run. }
    destruct (IH m1 s1 rs1 s2) as (m2 & Hrun2 & Hl2 & Hsig2 & Hm2);
      [by eapply q_wf_length|done..|].
    exists m2. split; [|split; [lia|split; [congruence|done]]].
    cbn [q_run]. erewrite bind_run by exact Hstep.
    erewrite bind_run by exact Hrun2. done.
Qed.

End queue_simulation.

(** * Runs of the specification FIFO *)

Section fifo_facts.
Context {T : Type}.
Implicit Types (s : @fifo T) (cs : list (@q_call T)) (xs : list T).

Lemma fifo_run_app cap s cs1 cs2 rs1 s1 rs2 s2 :
  fifo_run cap s cs1 = Some (rs1, s1) →
  fifo_run cap s1 cs2 = Some (rs2, s2) →
  fifo_run cap s (cs1 ++ cs2) = Some (rs1 ++ rs2, s2).
Proof.
  revert s rs1. induction cs1 as [|c cs1 IH]; intros s rs1 H1 H2.
  - injection H1 as <- <-. done.
  - cbn [fifo_run app] in *.
    destruct (fifo_do cap s c) as [[r s']|]; [|done].
    destruct (fifo_run cap s' cs1) as [[rs s'']|] eqn:E; [|done].
    injection H1 as <- <-.
    by rewrite (IH _ _ E H2).
Qed.

Lemma fifo_run_push_all cap xs : ∀ s,
  N.of_nat (length (items s) + length xs) ≤ cap →
  fifo_run cap s (push_all xs)
  = Some ((λ _, Pushed true) <$> xs,
          {| oldest := oldest s; items := items s ++ xs |}).
Proof.
  induction xs as [|x xs IH]; intros s Hlen.
  - cbn. rewrite app_nil_r. by destruct s.
  - cbn [push_all fmap list_fmap fifo_run fifo_do] in *. cbn [length] in Hlen.
    destruct (N.of_nat (length (items s)) =? cap) eqn:E.
    { apply N.eqb_eq in E. lia. }
    rewrite IH; cbn [items oldest].
    + by rewrite <- app_assoc.
    + rewrite length_app. cbn [length]. lia.
Qed.

Lemma fifo_run_drain cap xs : ∀ b,
  ∃ b', fifo_run cap {| oldest := b; items := xs |} (drain (length xs))
        = Some (xs ≫= (λ x, [Fronted x; Popped true]),
                {| oldest := b'; items := [] |}).
Proof.
  induction xs as [|x xs IH]; intros b.
  - by exists b.
  - destruct (IH ((b + 1) mod cap)) as (b' & Hrun).
    exists b'. cbn [length drain fifo_run fifo_do items oldest].
    rewrite Hrun. done.
Qed.

End fifo_facts.

(** * Invariants of reachable queue states *)

Section queue_reachable.
Import EEPROM Platform.
Context {T : Type} `{Storable T}.
Implicit Types (q : persistent_queue.handle) (m : buffer) (x : T).

Lemma q_invariant_models q m :
  q_invariant q m →
  q_models q m {| oldest := q_begin q m; items := q_contents q m |}.
Proof. by intros Hi. Qed.

Lemma q_push_invariant q m x r m' :
  q_wf q m → q_invariant q m →
  persistent_queue.push q x m = Some (r, m') →
  length m' = length m ∧ q_invariant q m'.
Proof.
  intros Hwf Hi Hrun.
  destruct (decide (q_size q m = persistent_queue.capacity_ q)) as [E|E].
  - rewrite q_push_full in Hrun by (by try apply q_wf_header).
    by injection Hrun as <- <-.
  - destruct (q_push_models q m _ x Hwf (q_invariant_models q m Hi))
      as (m1 & Hrun1 & Hl & _ & Hi1 & _).
    { cbn [items]. rewrite q_contents_length. lia. }
    rewrite Hrun1 in Hrun. by injection Hrun as <- <-.
Qed.

Lemma q_pop_invariant q m r m' :
  q_wf q m → q_invariant q m →
  persistent_queue.pop q m = Some (r, m') →
  length m' = length m ∧ q_invariant q m'.
Proof.
  intros Hwf Hi Hrun.
  destruct (q_contents q m) as [|x rest] eqn:Hc.
  - assert (q_size q m = 0) as E.
    { pose proof (q_contents_length q m) as Hl. rewrite Hc in Hl.
      cbn in Hl. lia. }
    rewrite q_pop_empty in Hrun by (by try apply q_wf_header).
    by injection Hrun as <- <-.
  - destruct (q_pop_models q m _ x rest Hwf (q_invariant_models q m Hi) Hc)
      as (_ & m1 & Hrun1 & Hl & _ & Hi1 & _).
    rewrite Hrun1 in Hrun. by injection Hrun as <- <-.
Qed.

Lemma q_mount_models q m m' :
  q_wf q m → q_signature q m ≠ persistent_queue.SIGNATURE →
  persistent_queue.persistent_queue
    (persistent_queue.storage_ q) (persistent_queue.capacity_ q) m
  = Some (q, m') →
  length m' = length m ∧ q_models q m' {| oldest := 0; items := [] |}.
Proof.
  intros Hwf Hsig Hrun.
  destruct (q_mount_init q m (q_wf_header q m Hwf) Hsig)
    as (m1 & Hrun1 & Hl & _ & Hb & He & Hs & _).
  rewrite Hrun1 in Hrun. injection Hrun as <-.
  destruct Hwf as (Hc0 & _). split; [done|].
  repeat split; cbn [oldest items]; rewrite ?Hb, ?He, ?Hs; try lia.
  - by rewrite N.Div0.mod_0_l.
  - unfold q_contents. by rewrite Hs.
Qed.

Lemma q_reachable_invariant q m0 m :
  q_wf q m0 → q_reachable q m0 m →
  length m = length m0 ∧ q_invariant q m.
Proof.
  intros Hwf Hr. induction Hr as [m Hsig Hrun|m x r m' _ [Hl Hi] Hrun
                                  |m r m' _ [Hl Hi] Hrun].
  - destruct (q_mount_models q m0 m Hwf Hsig Hrun) as (Hl & Hi & _). done.
  - destruct (q_push_invariant q m x r m') as [Hl' Hi']; [|done..|].
    + by apply (q_wf_length q m0).
    + split; [lia|done].
  - destruct (q_pop_invariant q m r m') as [Hl' Hi']; [|done..|].
    + by apply (q_wf_length q m0).
    + split; [lia|done].
Qed.


(** From a state that satisfies the invariant, [push] and [pop] always
    return. *)
Lemma q_push_returns q m x :
  q_wf q m → q_invariant q m →
  ∃ r m', persistent_queue.push q x m = Some (r, m').
Proof.
  intros Hwf Hi.
  destruct (decide (q_size q m = persistent_queue.capacity_ q)) as [E|E].
  - exists false, m. apply q_push_full; [by apply q_wf_header|done].
  - destruct (q_push_models q m _ x Hwf (q_invariant_models q m Hi))
      as (m1 & Hrun1 & _).
    { cbn [items]. rewrite q_contents_length. lia. }
    by exists true, m1.
Qed.

Lemma q_pop_returns q m :
  q_wf q m → q_invariant q m →
  ∃ r m', persistent_queue.pop q m = Some (r, m').
Proof.
  intros Hwf Hi.
  destruct (decide (q_size q m = 0)) as [E|E].
  - exists false, m. apply q_pop_empty; [by apply q_wf_header|done].
  - destruct (q_pop_run q m (q_wf_header q m Hwf) E) as (m1 & Hrun & _).
    by exists true, m1.
Qed.

End queue_reachable.

Section queue_scenario.
Import EEPROM Platform.
Context {T : Type} `{Storable T}.
Implicit Types (q : persistent_queue.handle) (m : buffer) (x : T) (s : @fifo T).

Lemma q_models_end q m s :
  q_models q m s →
  q_end q m = (oldest s + N.of_nat (length (items s)))
              mod persistent_queue.capacity_ q.
Proof.
  intros Hm. rewrite <- (q_models_size q m s Hm).
  destruct Hm as ((_ & _ & _ & He) & <- & _). exact He.
Qed.

Lemma q_models_lookup q m s (k : nat) x :
  q_models q m s → items s !! k = Some x →
  q_slot q m ((oldest s + N.of_nat k) mod persistent_queue.capacity_ q) = x.
Proof.
  intros (_ & <- & <-) Hk. unfold q_contents in Hk.
  rewrite list_lookup_fmap in Hk.
  destruct (seq 0 (N.to_nat (q_size q m)) !! k) as [k'|] eqn:E; [|done].
  apply lookup_seq in E as [-> _]. cbn in Hk. by injection Hk.
Qed.

Lemma q_models_empty q m s :
  q_wf q m → q_models q m s → items s = [] →
  persistent_queue.empty q m = Some (true, m).
Proof.
  intros Hwf Hm Hit. rewrite q_empty_run by (by apply q_wf_header).
  by rewrite (q_models_size q m s Hm), Hit.
Qed.

Lemma q_models_full q m s :
  q_wf q m → q_models q m s →
  N.of_nat (length (items s)) = persistent_queue.capacity_ q →
  persistent_queue.full q m = Some (true, m).
Proof.
  intros Hwf Hm Hit. rewrite q_full_run by (by apply q_wf_header).
  by rewrite (q_models_size q m s Hm), Hit, N.eqb_refl.
Qed.

(** The capacity-4 walk across the wrap-around point, for any element type
    and any five values. *)
Lemma q_wraparound_walk q m0 (x1 x2 x3 x4 x5 : T) :
  persistent_queue.capacity_ q = 4 → q_region_fits q m0 →
  q_signature q m0 ≠ persistent_queue.SIGNATURE →
  ∃ m1 m2 m3 m4 m5 m6,
    persistent_queue.persistent_queue (persistent_queue.storage_ q) 4 m0
    = Some (q, m1)
    ∧ q_run q [Push x1; Push x2; Push x3] m1
      = Some ([Pushed true; Pushed true; Pushed true], m2)
    ∧ q_end q m2 = 3
    ∧ persistent_queue.push q x4 m2 = Some (true, m3)
    ∧ q_end q m3 = 0
    ∧ persistent_queue.full q m3 = Some (true, m3)
    ∧ persistent_queue.pop q m3 = Some (true, m4)
    ∧ q_size q m4 = 3 ∧ q_end q m4 = 0
    ∧ persistent_queue.push q x5 m4 = Some (true, m5)
    ∧ q_slot q m5 0 = x5 ∧ q_end q m5 = 1
    ∧ q_run q (drain 4) m5
      = Some ([Fronted x2; Popped true; Fronted x3; Popped true;
               Fronted x4; Popped true; Fronted x5; Popped true], m6)
    ∧ persistent_queue.empty q m6 = Some (true, m6).
Proof.
  intros Hcap Hfit Hsig.
  assert (q_wf q m0) as Hwf0 by (unfold q_wf; rewrite Hcap; done).
  destruct (q_mount_init q m0 (q_wf_header q m0 Hwf0) Hsig)
    as (m1 & Hmount & _).
  destruct (q_mount_models q m0 m1 Hwf0 Hsig Hmount) as (Hl1 & Hm1).
  assert (q_wf q m1) as Hwf1 by (by apply (q_wf_length q m0)).
  destruct (q_run_refines q [Push x1; Push x2; Push x3] m1 _
              [Pushed true; Pushed true; Pushed true]
              {| oldest := 0; items := [x1; x2; x3] |} Hwf1 Hm1)
    as (m2 & Hrun2 & Hl2 & _ & Hm2); [by rewrite Hcap|].
  assert (q_wf q m2) as Hwf2 by (by apply (q_wf_length q m1)).
  destruct (q_push_models q m2 _ x4 Hwf2 Hm2) as (m3 & Hrun3 & Hl3 & _ & Hm3);
    [by rewrite Hcap|].
  assert (q_wf q m3) as Hwf3 by (by apply (q_wf_length q m2)).
  destruct (q_pop_models q m3 _ x1 [x2; x3; x4] Hwf3 Hm3 eq_refl)
    as (_ & m4 & Hrun4 & Hl4 & _ & Hm4).
  assert (q_wf q m4) as Hwf4 by (by apply (q_wf_length q m3)).
  destruct (q_push_models q m4 _ x5 Hwf4 Hm4) as (m5 & Hrun5 & Hl5 & _ & Hm5);
    [by rewrite Hcap|].
  assert (q_wf q m5) as Hwf5 by (by apply (q_wf_length q m4)).
  cbn [oldest items app] in *.
  destruct (q_run_refines q (drain 4) m5 _
              [Fronted x2; Popped true; Fronted x3; Popped true;
               Fronted x4; Popped true; Fronted x5; Popped true]
              {| oldest := 1; items := [] |} Hwf5 Hm5)
    as (m6 & Hrun6 & Hl6 & _ & Hm6); [by rewrite Hcap|].
  assert (q_wf q m6) as Hwf6 by (by apply (q_wf_length q m5)).
  exists m1, m2, m3, m4, m5, m6. rewrite <- Hcap at 1.
  split; [done|]. split; [done|].
  split; [by rewrite (q_models_end q m2 _ Hm2), Hcap|].
  split; [done|].
  split; [by rewrite (q_models_end q m3 _ Hm3), Hcap|].
  split; [by apply (q_models_full q m3 _ Hwf3 Hm3); rewrite Hcap|].
  split; [done|].
  split; [by rewrite (q_models_size q m4 _ Hm4)|].
  split; [by rewrite (q_models_end q m4 _ Hm4), Hcap|].
  split; [done|].
  split.
  { pose proof (q_models_lookup q m5 _ 3 x5 Hm5 eq_refl) as Hx.
    by rewrite Hcap in Hx. }
  split; [by rewrite (q_models_end q m5 _ Hm5), Hcap|].
  split; [done|].
  by apply (q_models_empty q m6 _ Hwf6 Hm6).
Qed.

End queue_scenario.

(** * The vector, step by step *)

Section vector_steps.
Import EEPROM Platform.
Context {T : Type} `{Storable T}.
Implicit Types (v : persistent_vector.handle) (m : buffer) (x : T).

Lemma v_storage_size_exact (capacity : N) :
  persistent_vector.data 0 + capacity * sizeof < UINT_MOD →
  persistent_vector.storage_size capacity
  = persistent_vector.data 0 + capacity * sizeof.
Proof.
  intros Hlt. unfold persistent_vector.storage_size.
  rewrite wrap_small; [done|exact Hlt].
Qed.

Lemma v_size_run v m :
  v_header_fits v m → persistent_vector.size v m = Some (v_size v m, m).
Proof. intros Hh. apply load_size_t_run. bounds. Qed.

Lemma v_empty_run v m :
  v_header_fits v m →
  persistent_vector.empty v m = Some (v_size v m =? 0, m).
Proof.
  intros Hh. unfold persistent_vector.empty.
  erewrite bind_run by (by apply v_size_run). done.
Qed.

Lemma v_full_run v m :
  v_header_fits v m →
  persistent_vector.full v m
  = Some (v_size v m =? persistent_vector.capacity_ v, m).
Proof.
  intros Hh. unfold persistent_vector.full.
  erewrite bind_run by (by apply v_size_run). done.
Qed.

Lemma v_full_pure v m (b : bool) m' :
  persistent_vector.full v m = Some (b, m') → m' = m.
Proof.
  unfold persistent_vector.full, persistent_vector.size, load_size_t, bind, ret.
  destruct (load_word _ _ m) as [[s m1]|] eqn:E; [|done].
  apply load_word_pure in E. congruence.
Qed.

Lemma v_empty_pure v m (b : bool) m' :
  persistent_vector.empty v m = Some (b, m') → m' = m.
Proof.
  unfold persistent_vector.empty, persistent_vector.size, load_size_t, bind, ret.
  destruct (load_word _ _ m) as [[s m1]|] eqn:E; [|done].
  apply load_word_pure in E. congruence.
Qed.

Lemma v_subscript_run v m i :
  v_slot_fits v m i →
  persistent_vector.subscript v i m = Some (v_slot v m i, m).
Proof. intros Hs. by apply load_T_run. Qed.

Lemma v_push_back_full v m x :
  v_header_fits v m → v_size v m = persistent_vector.capacity_ v →
  persistent_vector.push_back v x m = Some (false, m).
Proof.
  intros Hh Hs. unfold persistent_vector.push_back.
  mstep v_full_run. by rewrite Hs, N.eqb_refl.
Qed.

Lemma v_push_back_run v m x :
  v_header_fits v m → v_slot_fits v m (v_size v m) →
  v_size v m ≠ persistent_vector.capacity_ v →
  ∃ m', persistent_vector.push_back v x m = Some (true, m')
        ∧ length m' = length m
        ∧ v_signature v m' = v_signature v m
        ∧ v_size v m' = wrap (v_size v m + 1)
        ∧ v_slot v m' (v_size v m) = x
        ∧ ∀ i, i ≠ v_size v m → v_slot v m' i = v_slot v m i.
Proof.
  intros Hh Hsl Hs. set (s := v_size v m) in *.
  set (m1 := set_value m (persistent_vector.slot v s) x).
  assert (length m1 = length m) as Hl1 by (by apply set_value_length).
  set (m2 := set_word m1
               (persistent_vector.storage_ v + persistent_vector.size_ofs)
               (wrap (s + 1))).
  assert (length m2 = length m1) as Hl2 by (apply set_word_length; bounds).
  assert (word_at m1 (persistent_vector.storage_ v + persistent_vector.size_ofs)
          = s) as Hs1.
  { subst s. unfold v_size. apply word_at_set_value; bounds. }
  exists m2. repeat split.
  - unfold persistent_vector.push_back.
    mstep v_full_run. fold s. apply N.eqb_neq in Hs. rewrite Hs.
    mstep load_size_t_run. fold (v_size v m). fold s.
    mstep store_T_run. fold m1.
    mstep load_size_t_run. rewrite Hs1.
    mstep store_size_t_run. done.
  - lia.
  - unfold v_signature. subst m2 m1.
    rewrite word_at_set_word_ne by bounds.
    apply word_at_set_value; bounds.
  - unfold v_size at 1. subst m2.
    rewrite word_at_set_word by bounds. unfold wrap. by rewrite N.Div0.mod_mod.
  - unfold v_slot. subst m2. rewrite value_at_set_word by bounds.
    subst m1. by apply value_at_set_value.
  - intros i Hi. unfold v_slot. subst m2.
    rewrite value_at_set_word by bounds.
    subst m1. apply value_at_set_value_ne; [done|].
    pose proof sizeof_pos. bounds.
Qed.

Lemma v_pop_back_empty v m :
  v_header_fits v m → v_size v m = 0 →
  persistent_vector.pop_back v m = Some (false, m).
Proof.
  intros Hh Hs. unfold persistent_vector.pop_back.
  mstep v_empty_run. by rewrite Hs.
Qed.

Lemma v_pop_back_run v m :
  v_header_fits v m → v_size v m ≠ 0 →
  ∃ m', persistent_vector.pop_back v m = Some (true, m')
        ∧ length m' = length m
        ∧ v_signature v m' = v_signature v m
        ∧ v_size v m' = wrap (v_size v m + UINT_MOD - 1)
        ∧ ∀ i, v_slot v m' i = v_slot v m i.
Proof.
  intros Hh Hs. set (s := v_size v m) in *.
  set (m1 := set_word m
               (persistent_vector.storage_ v + persistent_vector.size_ofs)
               (wrap (s + UINT_MOD - 1))).
  assert (length m1 = length m) as Hl1 by (apply set_word_length; bounds).
  exists m1. repeat split.
  - unfold persistent_vector.pop_back.
    mstep v_empty_run. fold s. apply N.eqb_neq in Hs. rewrite Hs.
    mstep load_size_t_run. fold (v_size v m). fold s.
    mstep store_size_t_run. done.
  - lia.
  - unfold v_signature. subst m1. apply word_at_set_word_ne; bounds.
  - unfold v_size at 1. subst m1.
    rewrite word_at_set_word by bounds. unfold wrap. by rewrite N.Div0.mod_mod.
  - intros i. unfold v_slot. subst m1. apply value_at_set_word; bounds.
Qed.

Lemma v_mount_reuse v m :
  fits m (persistent_vector.storage_ v) 4 →
  v_signature v m = persistent_vector.SIGNATURE →
  persistent_vector.persistent_vector
    (persistent_vector.storage_ v) (persistent_vector.capacity_ v) m
  = Some (v, m).
Proof.
  intros Hf Hsig. unfold persistent_vector.persistent_vector.
  destruct v as [cap offset]. cbn [persistent_vector.storage_] in *.
  mstep load_unsigned_run.
  unfold v_signature in Hsig. cbn [persistent_vector.storage_] in Hsig.
  by rewrite Hsig, N.eqb_refl.
Qed.

Lemma v_mount_init v m :
  v_header_fits v m → v_signature v m ≠ persistent_vector.SIGNATURE →
  ∃ m', persistent_vector.persistent_vector
          (persistent_vector.storage_ v) (persistent_vector.capacity_ v) m
        = Some (v, m')
        ∧ length m' = length m
        ∧ v_signature v m' = persistent_vector.SIGNATURE
        ∧ v_size v m' = 0
        ∧ ∀ b n, b + n ≤ persistent_vector.storage_ v
                 ∨ persistent_vector.data (persistent_vector.storage_ v) ≤ b →
                 peek m' b n = peek m b n.
Proof.
  intros Hh Hsig. destruct v as [cap offset].
  unfold v_header_fits, v_signature, v_size in *.
  cbn [persistent_vector.storage_ persistent_vector.capacity_] in *.
  set (m1 := set_word m (offset + persistent_vector.signature_ofs)
               persistent_vector.SIGNATURE).
  set (m2 := set_word m1 (offset + persistent_vector.size_ofs) 0).
  assert (length m1 = length m) as Hl1 by (apply set_word_length; bounds).
  assert (length m2 = length m1) as Hl2 by (apply set_word_length; bounds).
  exists m2. repeat split.
  - unfold persistent_vector.persistent_vector.
    cbn [persistent_vector.storage_].
    mstep load_unsigned_run.
    apply N.eqb_neq in Hsig. rewrite Hsig. cbn [negb].
    mstep store_unsigned_run. fold m1.
    mstep store_size_t_run. done.
  - lia.
  - subst m2 m1. rewrite word_at_set_word_ne by bounds.
    by rewrite word_at_set_word by bounds.
  - subst m2. by rewrite word_at_set_word by bounds.
  - intros b n Hd. subst m2 m1. rewrite !peek_set_word by bounds. done.
Qed.

End vector_steps.

(** * The vector as a bounded list *)

Section vector_model_facts.
Import EEPROM Platform.
Context {T : Type} `{Storable T}.
Implicit Types (v : persistent_vector.handle) (m : buffer) (x : T) (xs : list T).

Lemma v_wf_header v m : v_wf v m → v_header_fits v m.
Proof. intros (? & ?). bounds. Qed.

Lemma v_wf_slot v m i :
  v_wf v m → i < persistent_vector.capacity_ v → v_slot_fits v m i.
Proof. intros (? & ?) Hi. bounds. Qed.

Lemma v_wf_length v m m' : length m' = length m → v_wf v m → v_wf v m'.
Proof. intros Hl (? & ?). split; [done|]. bounds. Qed.

Lemma v_contents_length v m :
  length (v_contents v m) = N.to_nat (v_size v m).
Proof. unfold v_contents. by rewrite length_fmap, length_seq. Qed.

Lemma v_contents_lookup v m (i : nat) x :
  v_contents v m !! i = Some x →
  N.of_nat i < v_size v m ∧ v_slot v m (N.of_nat i) = x.
Proof.
  unfold v_contents. intros Hi. rewrite list_lookup_fmap in Hi.
  destruct (seq 0 (N.to_nat (v_size v m)) !! i) as [k|] eqn:E; [|done].
  apply lookup_seq in E as [-> Hlt]. cbn in Hi. injection Hi as <-.
  split; [lia|done].
Qed.

Lemma v_subscript_contents v m (i : nat) x :
  v_wf v m → v_size v m ≤ persistent_vector.capacity_ v →
  v_contents v m !! i = Some x →
  persistent_vector.subscript v (N.of_nat i) m = Some (x, m).
Proof.
  intros Hwf Hs Hi. apply v_contents_lookup in Hi as [Hlt <-].
  apply v_subscript_run. apply v_wf_slot; [done|lia].
Qed.

Lemma v_push_back_contents v m x :
  v_wf v m → v_size v m < persistent_vector.capacity_ v →
  ∃ m', persistent_vector.push_back v x m = Some (true, m')
        ∧ length m' = length m
        ∧ v_signature v m' = v_signature v m
        ∧ v_size v m' = v_size v m + 1
        ∧ v_contents v m' = v_contents v m ++ [x].
Proof.
  intros Hwf Hs.
  destruct (v_push_back_run v m x)
    as (m' & Hrun & Hl & Hsig & Hs' & Hx & Hothers).
  { by apply v_wf_header. } { by apply v_wf_slot. } { lia. }
  destruct Hwf as (Hc & _). rewrite wrap_small in Hs' by lia.
  exists m'. split; [done|]. split; [done|]. split; [done|]. split; [done|].
  unfold v_contents. rewrite Hs'.
  replace (N.to_nat (v_size v m + 1)) with (S (N.to_nat (v_size v m))) by lia.
  rewrite seq_S, fmap_app. cbn [fmap list_fmap Nat.add]. f_equal.
  - apply list_fmap_ext. intros i k Hk.
    apply lookup_seq in Hk as [-> Hk]. apply Hothers. lia.
  - f_equal. by rewrite N2Nat.id.
Qed.

Lemma v_pop_back_contents v m :
  v_wf v m → v_size v m ≠ 0 →
  ∃ m', persistent_vector.pop_back v m = Some (true, m')
        ∧ length m' = length m
        ∧ v_signature v m' = v_signature v m
        ∧ v_size v m' + 1 = v_size v m
        ∧ v_contents v m' = take (N.to_nat (v_size v m) - 1) (v_contents v m).
Proof.
  intros Hwf Hs.
  pose proof (v_wf_header v m Hwf) as Hh.
  destruct (v_pop_back_run v m Hh Hs) as (m' & Hrun & Hl & Hsig & Hs' & Hslots).
  assert (v_size v m < UINT_MOD) as Hlt by (apply word_at_lt; bounds).
  assert (v_size v m' = v_size v m - 1) as Hs''.
  { rewrite Hs'. unfold wrap.
    replace (v_size v m + UINT_MOD - 1) with (v_size v m - 1 + 1 * UINT_MOD) by lia.
    rewrite N.Div0.mod_add. apply N.mod_small. lia. }
  exists m'. split; [done|]. split; [done|]. split; [done|]. split; [lia|].
  unfold v_contents. rewrite Hs'', <- fmap_take, take_seq.
  replace (N.to_nat (v_size v m - 1)) with (N.to_nat (v_size v m) - 1)%nat by lia.
  rewrite Nat.min_l by lia.
  apply list_fmap_ext. intros i k _. apply Hslots.
Qed.

Lemma v_push_all_contents v xs : ∀ m,
  v_wf v m → v_size v m + N.of_nat (length xs) ≤ persistent_vector.capacity_ v →
  ∃ m', v_push_all v xs m = Some ((λ _, true) <$> xs, m')
        ∧ length m' = length m
        ∧ v_signature v m' = v_signature v m
        ∧ v_size v m' = v_size v m + N.of_nat (length xs)
        ∧ v_contents v m' = v_contents v m ++ xs.
Proof.
  induction xs as [|x xs IH]; intros m Hwf Hlen.
  - exists m. rewrite app_nil_r, N.add_0_r. done.
  - cbn [length] in Hlen.
    destruct (v_push_back_contents v m x Hwf) as (m1 & Hrun & Hl & Hsig & Hs & Hc);
      [lia|].
    destruct (IH m1) as (m2 & Hrun2 & Hl2 & Hsig2 & Hs2 & Hc2).
    { by apply (v_wf_length v m). } { lia. }
    exists m2. split; [|split; [lia|split; [congruence|split]]].
    + cbn [v_push_all]. erewrite bind_run by exact Hrun.
      erewrite bind_run by exact Hrun2. done.
    + rewrite Hs2, Hs. cbn [length]. lia.
    + rewrite Hc2, Hc, <- app_assoc. done.
Qed.


End vector_model_facts.

(** * The claims *)

Section claims_queue_order.
Import EEPROM Platform.
Context {T : Type} `{Storable T}.

(** C1 (FIFO property).  On a queue of capacity [c > 0] that is empty ([size]
    is 0 and [begin], [end] are where the constructor or earlier pushes and
    pops left them), [k ≤ c] pushes of [p1..pk] all succeed, and the [k]
    rounds of [front()] followed by [pop()] that come next return
    [p1, p2, ..., pk] in that order, every [pop()] succeeding. *)
Theorem C1_fifo_order (q : persistent_queue.handle) (m : buffer) (ps : list T) :
  q_wf q m → q_invariant q m → q_size q m = 0 →
  N.of_nat (length ps) ≤ persistent_queue.capacity_ q →
  ∃ m', q_run q (push_all ps ++ drain (length ps)) m
        = Some (((λ _, Pushed true) <$> ps)
                ++ (ps ≫= (λ p, [Fronted p; Popped true])), m').
Proof.
  intros Hwf Hi Hs Hlen.
  pose proof (q_invariant_models q m Hi) as Hm.
  assert (q_contents q m = []) as Hc.
  { unfold q_contents. by rewrite Hs. }
  rewrite Hc in Hm.
  destruct (fifo_run_drain (persistent_queue.capacity_ q) ps (q_begin q m))
    as (b' & Hdrain).
  assert (fifo_run (persistent_queue.capacity_ q)
            {| oldest := q_begin q m; items := [] |}
            (push_all ps ++ drain (length ps))
          = Some (((λ _, Pushed true) <$> ps)
                  ++ (ps ≫= (λ p, [Fronted p; Popped true])),
                  {| oldest := b'; items := [] |})) as Hspec.
  { eapply fifo_run_app; [|exact Hdrain].
    rewrite fifo_run_push_all by (cbn [items length]; lia). done. }
  destruct (q_run_refines q _ m _ _ _ Hwf Hm Hspec) as (m' & Hrun & _).
  by exists m'.
Qed.

(** C2, amended.  For a capacity [0 < c < 2^32] whose footprint lies in the
    buffer, every state reached from a freshly initialised mount by pushes
    and pops has [size ≤ capacity], [begin] and [end] in [[0, capacity)] and
    [end = (begin + size) mod capacity]. *)
Theorem C2_reachable_invariant (q : persistent_queue.handle) (m0 m : buffer) :
  0 < persistent_queue.capacity_ q →
  persistent_queue.capacity_ q < UINT_MOD →
  q_region_fits q m0 →
  q_reachable q m0 m →
  q_size q m ≤ persistent_queue.capacity_ q
  ∧ q_begin q m < persistent_queue.capacity_ q
  ∧ q_end q m < persistent_queue.capacity_ q
  ∧ q_end q m = (q_begin q m + q_size q m) mod persistent_queue.capacity_ q.
Proof.
  intros Hc0 Hc1 Hfit Hr.
  by destruct (q_reachable_invariant q m0 m) as (_ & Hi).
Qed.

(** C3, amended.  On a freshly initialised queue of capacity 4 the fourth
    push is the one that wraps [end] from 3 to 0; after one pop, the fifth
    push succeeds, stores its value in slot 0 and moves [end] from 0 to 1;
    the four rounds of [front()] and [pop()] that follow return the second
    to fifth value in order and leave the queue empty.  In general every
    sequence of calls returns what a FIFO list bounded by the capacity
    returns, wherever [begin] and [end] stand in the slot array. *)
Theorem C3_wraparound_fifo :
  (∀ (q : persistent_queue.handle) (m0 : buffer) (x1 x2 x3 x4 x5 : T),
     persistent_queue.capacity_ q = 4 → q_region_fits q m0 →
     q_signature q m0 ≠ persistent_queue.SIGNATURE →
     ∃ m1 m2 m3 m4 m5 m6,
       persistent_queue.persistent_queue (persistent_queue.storage_ q) 4 m0
       = Some (q, m1)
       ∧ q_run q [Push x1; Push x2; Push x3] m1
         = Some ([Pushed true; Pushed true; Pushed true], m2)
       ∧ q_end q m2 = 3
       ∧ persistent_queue.push q x4 m2 = Some (true, m3)
       ∧ q_end q m3 = 0
       ∧ persistent_queue.full q m3 = Some (true, m3)
       ∧ persistent_queue.pop q m3 = Some (true, m4)
       ∧ q_size q m4 = 3 ∧ q_end q m4 = 0
       ∧ persistent_queue.push q x5 m4 = Some (true, m5)
       ∧ q_slot q m5 0 = x5 ∧ q_end q m5 = 1
       ∧ q_run q (drain 4) m5
         = Some ([Fronted x2; Popped true; Fronted x3; Popped true;
                  Fronted x4; Popped true; Fronted x5; Popped true], m6)
       ∧ persistent_queue.empty q m6 = Some (true, m6))
  ∧ (∀ (q : persistent_queue.handle) (cs : list q_call) (m : buffer)
       (s s' : fifo) (rs : list q_result),
       q_wf q m → q_models q m s →
       fifo_run (persistent_queue.capacity_ q) s cs = Some (rs, s') →
       ∃ m', q_run q cs m = Some (rs, m') ∧ q_models q m' s').
Proof.
  split.
  - intros. by apply q_wraparound_walk.
  - intros q cs m s s' rs Hwf Hm Hrun.
    destruct (q_run_refines q cs m s rs s' Hwf Hm Hrun) as (m' & ? & _ & _ & ?).
    by exists m'.
Qed.

End claims_queue_order.

Section claims_queue_order_examples.
Import EEPROM Platform.

Lemma C1_fifo_order_witness :
  ∃ m', q_run (queue_at 0 4) (push_all [x07; x08; x09] ++ drain 3)
          (magic ++ blank 16)
        = Some ([Pushed true; Pushed true; Pushed true;
                 Fronted x07; Popped true; Fronted x08; Popped true;
                 Fronted x09; Popped true], m').
Proof.
  apply (C1_fifo_order (queue_at 0 4) (magic ++ blank 16) [x07; x08; x09]);
    by_computation.
Defined.

(** With capacity 0 the freshly initialised state already has
    [begin = 0], which is not below the capacity. *)
Lemma C2_zero_capacity_counterexample :
  ∃ m, q_reachable (T:=byte) (queue_at 0 0) (blank 16) m
       ∧ ¬ (q_size (queue_at 0 0) m ≤ 0
            ∧ q_begin (queue_at 0 0) m < 0
            ∧ q_end (queue_at 0 0) m < 0
            ∧ q_end (queue_at 0 0) m
              = (q_begin (queue_at 0 0) m + q_size (queue_at 0 0) m) mod 0).
Proof.
  exists (magic ++ blank 12). split.
  - apply reach_mount; by_computation.
  - intros (_ & Hb & _). vm_compute in Hb. discriminate.
Qed.

Lemma C2_reachable_invariant_witness :
  q_size (queue_at 0 2) (magic ++ [x01; x00; x00; x00; x00; x00; x00; x00;
                                   x01; x00; x00; x00; x07; x08]) ≤ 2
  ∧ q_begin (queue_at 0 2) (magic ++ [x01; x00; x00; x00; x00; x00; x00; x00;
                                      x01; x00; x00; x00; x07; x08]) < 2
  ∧ q_end (queue_at 0 2) (magic ++ [x01; x00; x00; x00; x00; x00; x00; x00;
                                    x01; x00; x00; x00; x07; x08]) < 2
  ∧ q_end (queue_at 0 2) (magic ++ [x01; x00; x00; x00; x00; x00; x00; x00;
                                    x01; x00; x00; x00; x07; x08])
    = (q_begin (queue_at 0 2) (magic ++ [x01; x00; x00; x00; x00; x00; x00; x00;
                                         x01; x00; x00; x00; x07; x08])
       + q_size (queue_at 0 2) (magic ++ [x01; x00; x00; x00; x00; x00; x00; x00;
                                          x01; x00; x00; x00; x07; x08]))
      mod 2.
Proof.
  apply (C2_reachable_invariant (T:=byte) (queue_at 0 2) (blank 18));
    [by_computation..|].
  apply (reach_pop _ _ (magic ++ [x00; x00; x00; x00; x00; x00; x00; x00;
                                  x02; x00; x00; x00; x07; x08]) true);
    [|by_computation].
  apply (reach_push _ _ (magic ++ [x00; x00; x00; x00; x01; x00; x00; x00;
                                   x01; x00; x00; x00; x07; x00]) x08 true);
    [|by_computation].
  apply (reach_push _ _ (magic ++ blank 14) x07 true); [|by_computation].
  apply reach_mount; by_computation.
Defined.

End claims_queue_order_examples.

Section claims_wraparound_examples.
Import EEPROM Platform.

(** On the capacity-4 walk, [end] is already 0 when the fifth value is
    pushed, and that push moves it to 1: it does not wrap from 3 to 0. *)
Lemma C3_fifth_push_counterexample :
  ∃ m4 m5,
    (let* q := persistent_queue.persistent_queue 0 4 in
     q_run q [Push x01; Push x02; Push x03; Push x04; Pop]) (blank 20)
    = Some ([Pushed true; Pushed true; Pushed true; Pushed true;
             Popped true], m4)
    ∧ persistent_queue.push (queue_at 0 4) x05 m4 = Some (true, m5)
    ∧ q_end (queue_at 0 4) m4 = 0
    ∧ q_end (queue_at 0 4) m5 = 1
    ∧ ¬ (q_end (queue_at 0 4) m4 = 3 ∧ q_end (queue_at 0 4) m5 = 0).
Proof.
  do 2 eexists.
  split; [vm_compute; reflexivity|].
  split; [vm_compute; reflexivity|].
  split; [vm_compute; reflexivity|].
  split; [vm_compute; reflexivity|].
  intros [Hbefore _]. vm_compute in Hbefore. discriminate.
Qed.

Lemma C3_wraparound_fifo_witness :
  (∃ m1 m2 m3 m4 m5 m6,
     persistent_queue.persistent_queue 0 4 (blank 20)
     = Some (queue_at 0 4, m1)
     ∧ q_run (queue_at 0 4) [Push x01; Push x02; Push x03] m1
       = Some ([Pushed true; Pushed true; Pushed true], m2)
     ∧ q_end (queue_at 0 4) m2 = 3
     ∧ persistent_queue.push (queue_at 0 4) x04 m2 = Some (true, m3)
     ∧ q_end (queue_at 0 4) m3 = 0
     ∧ persistent_queue.full (queue_at 0 4) m3 = Some (true, m3)
     ∧ persistent_queue.pop (queue_at 0 4) m3 = Some (true, m4)
     ∧ q_size (queue_at 0 4) m4 = 3 ∧ q_end (queue_at 0 4) m4 = 0
     ∧ persistent_queue.push (queue_at 0 4) x05 m4 = Some (true, m5)
     ∧ q_slot (queue_at 0 4) m5 0 = x05 ∧ q_end (queue_at 0 4) m5 = 1
     ∧ q_run (queue_at 0 4) (drain 4) m5
       = Some ([Fronted x02; Popped true; Fronted x03; Popped true;
                Fronted x04; Popped true; Fronted x05; Popped true], m6)
     ∧ persistent_queue.empty (queue_at 0 4) m6 = Some (true, m6))
  ∧ (∃ m', q_run (queue_at 0 4) [Push x01; Front; Pop; Pop] (magic ++ blank 16)
           = Some ([Pushed true; Fronted x01; Popped true; Popped false], m')
           ∧ q_models (T:=byte) (queue_at 0 4) m' {| oldest := 1; items := [] |}).
Proof.
  split.
  - apply (proj1 (C3_wraparound_fifo (T:=byte)) (queue_at 0 4) (blank 20)
             x01 x02 x03 x04 x05); by_computation.
  - apply (proj2 (C3_wraparound_fifo (T:=byte)) (queue_at 0 4)
             [Push x01; Front; Pop; Pop] (magic ++ blank 16)
             {| oldest := 0; items := @nil byte |}); by_computation.
Defined.

End claims_wraparound_examples.

Section claims_mount.
Import EEPROM Platform.

(** C4 (mounting is idempotent).  Over a region whose signature already is
    the magic constant, the constructor of either container returns its
    handle and leaves every byte of the buffer as it was; so does a second
    constructor call right after the first. *)
Theorem C4_mount_idempotent
    (q : persistent_queue.handle) (v : persistent_vector.handle) (m : buffer) :
  (fits m (persistent_queue.storage_ q) 4 →
   q_signature q m = persistent_queue.SIGNATURE →
   persistent_queue.persistent_queue
     (persistent_queue.storage_ q) (persistent_queue.capacity_ q) m
   = Some (q, m)
   ∧ (persistent_queue.persistent_queue
        (persistent_queue.storage_ q) (persistent_queue.capacity_ q) ;;
      persistent_queue.persistent_queue
        (persistent_queue.storage_ q) (persistent_queue.capacity_ q)) m
     = Some (q, m))
  ∧ (fits m (persistent_vector.storage_ v) 4 →
     v_signature v m = persistent_vector.SIGNATURE →
     persistent_vector.persistent_vector
       (persistent_vector.storage_ v) (persistent_vector.capacity_ v) m
     = Some (v, m)
     ∧ (persistent_vector.persistent_vector
          (persistent_vector.storage_ v) (persistent_vector.capacity_ v) ;;
        persistent_vector.persistent_vector
          (persistent_vector.storage_ v) (persistent_vector.capacity_ v)) m
       = Some (v, m)).
Proof.
  split; intros Hf Hsig.
  - pose proof (q_mount_reuse q m Hf Hsig) as Hrun.
    split; [done|]. by erewrite bind_run by exact Hrun.
  - pose proof (v_mount_reuse v m Hf Hsig) as Hrun.
    split; [done|]. by erewrite bind_run by exact Hrun.
Qed.

(** C5 (garbage mounts to empty).  Whatever the region holds, if its
    signature field is not the magic constant the constructor writes the
    magic constant and zeroes [size] (and [begin] and [end] for the queue):
    the container it returns is empty. *)
Theorem C5_fresh_mount_empty
    (q : persistent_queue.handle) (v : persistent_vector.handle) (m : buffer) :
  (q_header_fits q m → q_signature q m ≠ persistent_queue.SIGNATURE →
   ∃ m', persistent_queue.persistent_queue
           (persistent_queue.storage_ q) (persistent_queue.capacity_ q) m
         = Some (q, m')
         ∧ q_signature q m' = persistent_queue.SIGNATURE
         ∧ q_begin q m' = 0 ∧ q_end q m' = 0
         ∧ persistent_queue.size q m' = Some (0, m')
         ∧ persistent_queue.empty q m' = Some (true, m'))
  ∧ (v_header_fits v m → v_signature v m ≠ persistent_vector.SIGNATURE →
     ∃ m', persistent_vector.persistent_vector
             (persistent_vector.storage_ v) (persistent_vector.capacity_ v) m
           = Some (v, m')
           ∧ v_signature v m' = persistent_vector.SIGNATURE
           ∧ persistent_vector.size v m' = Some (0, m')
           ∧ persistent_vector.empty v m' = Some (true, m')).
Proof.
  split; intros Hh Hsig.
  - destruct (q_mount_init q m Hh Hsig)
      as (m' & Hrun & Hl & Hsig' & Hb & He & Hs & _).
    assert (q_header_fits q m') as Hh' by bounds.
    exists m'. repeat split; try done.
    + by rewrite q_size_run, Hs.
    + by rewrite q_empty_run, Hs.
  - destruct (v_mount_init v m Hh Hsig) as (m' & Hrun & Hl & Hsig' & Hs & _).
    assert (v_header_fits v m') as Hh' by bounds.
    exists m'. repeat split; try done.
    + by rewrite v_size_run, Hs.
    + by rewrite v_empty_run, Hs.
Qed.

Lemma C4_mount_idempotent_witness :
  (persistent_queue.persistent_queue 0 2
     (magic ++ [x01; x00; x00; x00; x00; x00; x00; x00;
                x01; x00; x00; x00; x07; x08])
   = Some (queue_at 0 2,
           magic ++ [x01; x00; x00; x00; x00; x00; x00; x00;
                     x01; x00; x00; x00; x07; x08])
   ∧ (persistent_queue.persistent_queue 0 2 ;;
      persistent_queue.persistent_queue 0 2)
       (magic ++ [x01; x00; x00; x00; x00; x00; x00; x00;
                  x01; x00; x00; x00; x07; x08])
     = Some (queue_at 0 2,
             magic ++ [x01; x00; x00; x00; x00; x00; x00; x00;
                       x01; x00; x00; x00; x07; x08]))
  ∧ (persistent_vector.persistent_vector 0 2
       (magic ++ [x01; x00; x00; x00; x07; x08])
     = Some (vector_at 0 2, magic ++ [x01; x00; x00; x00; x07; x08])
     ∧ (persistent_vector.persistent_vector 0 2 ;;
        persistent_vector.persistent_vector 0 2)
         (magic ++ [x01; x00; x00; x00; x07; x08])
       = Some (vector_at 0 2, magic ++ [x01; x00; x00; x00; x07; x08])).
Proof.
  split.
  - apply (proj1 (C4_mount_idempotent (queue_at 0 2) (vector_at 0 2) _));
      by_computation.
  - apply (proj2 (C4_mount_idempotent (queue_at 0 2) (vector_at 0 2) _));
      by_computation.
Defined.

Lemma C5_fresh_mount_empty_witness :
  (∃ m', persistent_queue.persistent_queue 0 2
           [x13; x37; xc0; xde; xff; xff; xff; xff; xaa; xbb; xcc; xdd;
            x01; x02; x03; x04; x55; x66]
         = Some (queue_at 0 2, m')
         ∧ q_signature (queue_at 0 2) m' = persistent_queue.SIGNATURE
         ∧ q_begin (queue_at 0 2) m' = 0 ∧ q_end (queue_at 0 2) m' = 0
         ∧ persistent_queue.size (queue_at 0 2) m' = Some (0, m')
         ∧ persistent_queue.empty (queue_at 0 2) m' = Some (true, m'))
  ∧ (∃ m', persistent_vector.persistent_vector 0 2
             [x13; x37; xc0; xde; xff; xff; xff; xff; x55; x66]
           = Some (vector_at 0 2, m')
           ∧ v_signature (vector_at 0 2) m' = persistent_vector.SIGNATURE
           ∧ persistent_vector.size (vector_at 0 2) m' = Some (0, m')
           ∧ persistent_vector.empty (vector_at 0 2) m' = Some (true, m')).
Proof.
  split.
  - apply (proj1 (C5_fresh_mount_empty (queue_at 0 2) (vector_at 0 2) _));
      by_computation.
  - apply (proj2 (C5_fresh_mount_empty (queue_at 0 2) (vector_at 0 2) _));
      by_computation.
Defined.

End claims_mount.

Section claims_bounds.
Import EEPROM Platform.
Context {T : Type} `{Storable T}.

(** C6 (capacity exceeded).  When [full()] returns true, [push] on the queue
    and [push_back] on the vector return false and leave the buffer, hence
    [size], [begin], [end] and every slot, as it was. *)
Theorem C6_push_when_full
    (q : persistent_queue.handle) (v : persistent_vector.handle)
    (m mq mv : buffer) (x : T) :
  (persistent_queue.full q m = Some (true, mq) →
   persistent_queue.push q x m = Some (false, m))
  ∧ (persistent_vector.full v m = Some (true, mv) →
     persistent_vector.push_back v x m = Some (false, m)).
Proof.
  split; intros Hfull.
  - pose proof (q_full_pure q m true mq Hfull) as ->.
    unfold persistent_queue.push. by erewrite bind_run by exact Hfull.
  - pose proof (v_full_pure v m true mv Hfull) as ->.
    unfold persistent_vector.push_back. by erewrite bind_run by exact Hfull.
Qed.

(** C7 (underflow).  When [empty()] returns true, [pop] on the queue and
    [pop_back] on the vector return false and leave the buffer, hence
    [size], [begin], [end] and every slot, as it was. *)
Theorem C7_pop_when_empty
    (q : persistent_queue.handle) (v : persistent_vector.handle)
    (m mq mv : buffer) :
  (persistent_queue.empty q m = Some (true, mq) →
   persistent_queue.pop q m = Some (false, m))
  ∧ (persistent_vector.empty v m = Some (true, mv) →
     persistent_vector.pop_back v m = Some (false, m)).
Proof.
  split; intros Hempty.
  - pose proof (q_empty_pure q m true mq Hempty) as ->.
    unfold persistent_queue.pop. by erewrite bind_run by exact Hempty.
  - pose proof (v_empty_pure v m true mv Hempty) as ->.
    unfold persistent_vector.pop_back. by erewrite bind_run by exact Hempty.
Qed.

(** C8, amended.  On an empty vector of capacity [c], [k ≤ c] calls of
    [push_back] with [v1..vk] all succeed, after which [size()] is [k] and
    [operator[](i)] returns the value pushed at position [i] for every
    [i < k]; if [k ≥ 1], one [pop_back()] then succeeds, [size()] is [k - 1]
    and [operator[](i)] still returns the same value for every [i < k - 1];
    if [k = 0], [pop_back()] returns false, writes nothing, and [size()]
    stays 0. *)
Theorem C8_vector_order
    (v : persistent_vector.handle) (m : buffer) (xs : list T) :
  v_wf v m → v_size v m = 0 →
  N.of_nat (length xs) ≤ persistent_vector.capacity_ v →
  ∃ m1, v_push_all v xs m = Some ((λ _, true) <$> xs, m1)
        ∧ persistent_vector.size v m1 = Some (N.of_nat (length xs), m1)
        ∧ (∀ (i : nat) x, xs !! i = Some x →
             persistent_vector.subscript v (N.of_nat i) m1 = Some (x, m1))
        ∧ (xs ≠ [] →
           ∃ m2, persistent_vector.pop_back v m1 = Some (true, m2)
                 ∧ persistent_vector.size v m2
                   = Some (N.of_nat (length xs) - 1, m2)
                 ∧ v_size v m2 + 1 = v_size v m1
                 ∧ ∀ (i : nat) x, (i < length xs - 1)%nat → xs !! i = Some x →
                     persistent_vector.subscript v (N.of_nat i) m2
                     = Some (x, m2))
        ∧ (xs = [] →
           persistent_vector.pop_back v m1 = Some (false, m1)
           ∧ persistent_vector.size v m1 = Some (0, m1)).
Proof.
  intros Hwf Hs Hlen.
  destruct (v_push_all_contents v xs m Hwf) as (m1 & Hrun & Hl & _ & Hs1 & Hc1);
    [lia|].
  assert (v_contents v m = []) as Hc by (unfold v_contents; by rewrite Hs).
  rewrite Hc in Hc1. cbn [app] in Hc1. rewrite Hs, N.add_0_l in Hs1.
  assert (v_wf v m1) as Hwf1 by (by apply (v_wf_length v m)).
  exists m1. split; [done|]. split; [|split; [|split]].
  - rewrite v_size_run by (by apply v_wf_header). by rewrite Hs1.
  - intros i x Hi. apply v_subscript_contents; [done|lia|by rewrite Hc1].
  - intros Hne.
    destruct (v_pop_back_contents v m1 Hwf1) as (m2 & Hrun2 & Hl2 & _ & Hs2 & Hc2).
    { rewrite Hs1. destruct xs; [done|]. cbn [length]. lia. }
    assert (v_wf v m2) as Hwf2 by (by apply (v_wf_length v m1)).
    exists m2. split; [done|]. split; [|split; [done|]].
    + rewrite v_size_run by (by apply v_wf_header). do 2 f_equal. lia.
    + intros i x Hlt Hi. apply v_subscript_contents; [done|lia|].
      rewrite Hc2, Hc1, Hs1, lookup_take_lt by lia. done.
  - intros ->. cbn [length] in Hs1.
    pose proof (v_wf_header v m1 Hwf1) as Hh1. split.
    + by apply v_pop_back_empty.
    + rewrite v_size_run by done. by rewrite Hs1.
Qed.

End claims_bounds.

Section claims_bounds_examples.
Import EEPROM Platform.

Lemma C6_push_when_full_witness :
  persistent_queue.push (queue_at 0 2) x09
    (magic ++ [x01; x00; x00; x00; x01; x00; x00; x00;
               x02; x00; x00; x00; x07; x08])
  = Some (false, magic ++ [x01; x00; x00; x00; x01; x00; x00; x00;
                           x02; x00; x00; x00; x07; x08])
  ∧ persistent_vector.push_back (vector_at 0 2) x09
      (magic ++ [x02; x00; x00; x00; x07; x08])
    = Some (false, magic ++ [x02; x00; x00; x00; x07; x08]).
Proof.
  split.
  - apply (proj1 (C6_push_when_full (queue_at 0 2) (vector_at 0 2)
                    (magic ++ [x01; x00; x00; x00; x01; x00; x00; x00;
                               x02; x00; x00; x00; x07; x08])
                    (magic ++ [x01; x00; x00; x00; x01; x00; x00; x00;
                               x02; x00; x00; x00; x07; x08]) [] x09)).
    by_computation.
  - apply (proj2 (C6_push_when_full (queue_at 0 2) (vector_at 0 2)
                    (magic ++ [x02; x00; x00; x00; x07; x08]) []
                    (magic ++ [x02; x00; x00; x00; x07; x08]) x09)).
    by_computation.
Defined.

Lemma C7_pop_when_empty_witness :
  persistent_queue.pop (queue_at 0 2)
    (magic ++ [x01; x00; x00; x00; x01; x00; x00; x00;
               x00; x00; x00; x00; x07; x08])
  = Some (false, magic ++ [x01; x00; x00; x00; x01; x00; x00; x00;
                           x00; x00; x00; x00; x07; x08])
  ∧ persistent_vector.pop_back (vector_at 0 2)
      (magic ++ [x00; x00; x00; x00; x07; x08])
    = Some (false, magic ++ [x00; x00; x00; x00; x07; x08]).
Proof.
  split.
  - apply (proj1 (C7_pop_when_empty (queue_at 0 2) (vector_at 0 2)
                    (magic ++ [x01; x00; x00; x00; x01; x00; x00; x00;
                               x00; x00; x00; x00; x07; x08])
                    (magic ++ [x01; x00; x00; x00; x01; x00; x00; x00;
                               x00; x00; x00; x00; x07; x08]) [])).
    by_computation.
  - apply (proj2 (C7_pop_when_empty (queue_at 0 2) (vector_at 0 2)
                    (magic ++ [x00; x00; x00; x00; x07; x08]) []
                    (magic ++ [x00; x00; x00; x00; x07; x08]))).
    by_computation.
Defined.

(** With no value pushed ([k = 0]), [pop_back()] fails and [size()] stays 0
    instead of going down by one. *)
Lemma C8_nothing_pushed_counterexample :
  v_push_all (T:=byte) (vector_at 0 4) [] (magic ++ blank 8)
  = Some ([], magic ++ blank 8)
  ∧ persistent_vector.size (vector_at 0 4) (magic ++ blank 8)
    = Some (0, magic ++ blank 8)
  ∧ persistent_vector.pop_back (vector_at 0 4) (magic ++ blank 8)
    = Some (false, magic ++ blank 8)
  ∧ ¬ ∃ r m2, persistent_vector.pop_back (vector_at 0 4)
                (magic ++ blank 8) = Some (r, m2)
              ∧ v_size (vector_at 0 4) m2 + 1
                = v_size (vector_at 0 4) (magic ++ blank 8).
Proof.
  split; [by_computation|]. split; [by_computation|]. split; [by_computation|].
  intros (r & m2 & Hrun & Hdec).
  vm_compute in Hrun. injection Hrun as <- <-.
  vm_compute in Hdec. discriminate.
Qed.

(** Two-byte elements on a vector of capacity 2, and no element at all. *)
Lemma C8_vector_order_witness :
  (∃ m1, v_push_all (vector_at 0 2) [(x07, x08); (x09, x0a)] (magic ++ blank 8)
         = Some ([true; true], m1)
         ∧ persistent_vector.size (vector_at 0 2) m1 = Some (2, m1)
         ∧ (∀ (i : nat) x, [(x07, x08); (x09, x0a)] !! i = Some x →
              persistent_vector.subscript (vector_at 0 2) (N.of_nat i) m1
              = Some (x, m1))
         ∧ ([(x07, x08); (x09, x0a)] ≠ [] →
            ∃ m2, persistent_vector.pop_back (vector_at 0 2) m1 = Some (true, m2)
                  ∧ persistent_vector.size (vector_at 0 2) m2 = Some (2 - 1, m2)
                  ∧ v_size (vector_at 0 2) m2 + 1 = v_size (vector_at 0 2) m1
                  ∧ ∀ (i : nat) x, (i < 2 - 1)%nat →
                      [(x07, x08); (x09, x0a)] !! i = Some x →
                      persistent_vector.subscript (vector_at 0 2) (N.of_nat i) m2
                      = Some (x, m2))
         ∧ ([(x07, x08); (x09, x0a)] = [] →
            persistent_vector.pop_back (vector_at 0 2) m1 = Some (false, m1)
            ∧ persistent_vector.size (vector_at 0 2) m1 = Some (0, m1)))
  ∧ (∃ m1, v_push_all (T:=byte) (vector_at 0 2) [] (magic ++ blank 6)
           = Some ([], m1)
           ∧ persistent_vector.size (vector_at 0 2) m1 = Some (0, m1)
           ∧ (∀ (i : nat) x, @nil byte !! i = Some x →
                persistent_vector.subscript (vector_at 0 2) (N.of_nat i) m1
                = Some (x, m1))
           ∧ (@nil byte ≠ [] →
              ∃ m2, persistent_vector.pop_back (vector_at 0 2) m1 = Some (true, m2)
                    ∧ persistent_vector.size (vector_at 0 2) m2 = Some (0 - 1, m2)
                    ∧ v_size (vector_at 0 2) m2 + 1 = v_size (vector_at 0 2) m1
                    ∧ ∀ (i : nat) x, (i < 0 - 1)%nat →
                        @nil byte !! i = Some x →
                        persistent_vector.subscript (vector_at 0 2) (N.of_nat i) m2
                        = Some (x, m2))
           ∧ (@nil byte = [] →
              persistent_vector.pop_back (vector_at 0 2) m1 = Some (false, m1)
              ∧ persistent_vector.size (vector_at 0 2) m1 = Some (0, m1))).
Proof.
  split.
  - apply (C8_vector_order (vector_at 0 2) (magic ++ blank 8)
             [(x07, x08); (x09, x0a)]); by_computation.
  - apply (C8_vector_order (T:=byte) (vector_at 0 2) (magic ++ blank 6) []);
      by_computation.
Defined.

End claims_bounds_examples.

Section claims_layout.
Import EEPROM Platform.
Context {T : Type} `{Storable T}.

(** C9 (one signature for both containers).  Both classes use the magic
    constant 0xa2bedef9.  A queue mounted where a vector was mounted before,
    or a vector where a queue was, finds the signature, writes nothing, and
    reads the other container's header: the word the vector uses as [size]
    is the word the queue uses as [begin]. *)
Theorem C9_shared_signature (offset qcap vcap : N) (m : buffer) :
  persistent_queue.SIGNATURE = 0xa2bedef9
  ∧ persistent_vector.SIGNATURE = 0xa2bedef9
  ∧ load_unsigned (offset + persistent_queue.begin_ofs)
    = persistent_vector.size (vector_at offset vcap)
  ∧ (v_header_fits (vector_at offset vcap) m →
     ∃ m1, persistent_vector.persistent_vector offset vcap m
           = Some (vector_at offset vcap, m1)
           ∧ persistent_queue.persistent_queue offset qcap m1
             = Some (queue_at offset qcap, m1)
           ∧ q_begin (queue_at offset qcap) m1
             = v_size (vector_at offset vcap) m1)
  ∧ (q_header_fits (queue_at offset qcap) m →
     ∃ m1, persistent_queue.persistent_queue offset qcap m
           = Some (queue_at offset qcap, m1)
           ∧ persistent_vector.persistent_vector offset vcap m1
             = Some (vector_at offset vcap, m1)
           ∧ persistent_vector.size (vector_at offset vcap) m1
             = Some (q_begin (queue_at offset qcap) m1, m1)).
Proof.
  split; [done|]. split; [done|]. split; [done|].
  unfold vector_at, queue_at. split.
  - intros Hh.
    set (v := {| persistent_vector.capacity_ := vcap;
                 persistent_vector.storage_ := offset |}) in *.
    set (q := {| persistent_queue.capacity_ := qcap;
                 persistent_queue.storage_ := offset |}).
    assert (∃ m1, persistent_vector.persistent_vector offset vcap m = Some (v, m1)
                  ∧ length m1 = length m
                  ∧ v_signature v m1 = persistent_vector.SIGNATURE)
      as (m1 & Hrun & Hl & Hsig).
    { destruct (decide (v_signature v m = persistent_vector.SIGNATURE)) as [E|E].
      - exists m. split; [|done].
        apply (v_mount_reuse v m); [subst v; bounds|done].
      - destruct (v_mount_init v m Hh E) as (m1 & ? & ? & ? & _).
        by exists m1. }
    exists m1. split; [done|]. split; [|done].
    apply (q_mount_reuse q m1); [subst v q; bounds|exact Hsig].
  - intros Hh.
    set (q := {| persistent_queue.capacity_ := qcap;
                 persistent_queue.storage_ := offset |}) in *.
    set (v := {| persistent_vector.capacity_ := vcap;
                 persistent_vector.storage_ := offset |}).
    assert (∃ m1, persistent_queue.persistent_queue offset qcap m = Some (q, m1)
                  ∧ length m1 = length m
                  ∧ q_signature q m1 = persistent_queue.SIGNATURE)
      as (m1 & Hrun & Hl & Hsig).
    { destruct (decide (q_signature q m = persistent_queue.SIGNATURE)) as [E|E].
      - exists m. split; [|done].
        apply (q_mount_reuse q m); [subst q; bounds|done].
      - destruct (q_mount_init q m Hh E) as (m1 & ? & ? & ? & _).
        by exists m1. }
    exists m1. split; [done|]. split.
    + apply (v_mount_reuse v m1); [subst v q; bounds|exact Hsig].
    + apply (v_size_run v m1). subst v q. bounds.
Qed.


End claims_layout.

Section claims_layout_examples.
Import EEPROM Platform.

Lemma C9_shared_signature_witness :
  (∃ m1, persistent_vector.persistent_vector 0 2 (blank 18)
         = Some (vector_at 0 2, m1)
         ∧ persistent_queue.persistent_queue 0 2 m1 = Some (queue_at 0 2, m1)
         ∧ q_begin (queue_at 0 2) m1 = v_size (vector_at 0 2) m1)
  ∧ (∃ m1, persistent_queue.persistent_queue 0 2
             (magic ++ [x01; x00; x00; x00; x00; x00; x00; x00;
                        x01; x00; x00; x00; x07; x08])
           = Some (queue_at 0 2, m1)
           ∧ persistent_vector.persistent_vector 0 2 m1
             = Some (vector_at 0 2, m1)
           ∧ persistent_vector.size (vector_at 0 2) m1
             = Some (q_begin (queue_at 0 2) m1, m1)).
Proof.
  split.
  - apply (proj1 (proj2 (proj2 (proj2
             (C9_shared_signature 0 2 2 (blank 18)))))).
    by_computation.
  - apply (proj2 (proj2 (proj2 (proj2
             (C9_shared_signature 0 2 2
                (magic ++ [x01; x00; x00; x00; x00; x00; x00; x00;
                           x01; x00; x00; x00; x07; x08])))))).
    by_computation.
Defined.



End claims_layout_examples.

(** * Beyond the claims: which bytes the queue writes *)

Ltac footprint :=
  unfold q_footprint, v_footprint in *; bounds.

Section queue_writes.
Import EEPROM Platform.
Context {T : Type} `{Storable T}.
Implicit Types (q : persistent_queue.handle) (m : buffer) (x : T).

Lemma same_outside_refl a n m : same_outside a n m m.
Proof. by split. Qed.

Lemma same_outside_trans a n m1 m2 m3 :
  same_outside a n m1 m2 → same_outside a n m2 m3 → same_outside a n m1 m3.
Proof.
  intros [Hl1 Hp1] [Hl2 Hp2]. split; [congruence|].
  intros b k Hd. by rewrite Hp2, Hp1.
Qed.

Lemma same_outside_weaken a n a' n' m m' :
  a' ≤ a → a + n ≤ a' + n' →
  same_outside a n m m' → same_outside a' n' m m'.
Proof.
  intros Ha Hn [Hl Hp]. split; [done|].
  intros b k Hd. apply Hp. lia.
Qed.

Lemma store_bytes_fails a bs m :
  ¬ fits m a (N.of_nat (length bs)) → store_bytes a bs m = None.
Proof.
  intros Hn. unfold store_bytes.
  destruct (in_bounds m a (N.of_nat (length bs))) eqn:E; [|done].
  by apply in_bounds_fits in E.
Qed.

Lemma store_T_fails a x m : ¬ fits m a sizeof → store_T a x m = None.
Proof.
  intros Hn. unfold store_T. apply store_bytes_fails.
  by rewrite to_bytes_length.
Qed.

(** A successful [push] writes the slot at [end], then [end] and [size]. *)
Lemma q_push_touches q m x :
  q_header_fits q m → q_slot_fits q m (q_end q m) →
  q_size q m ≠ persistent_queue.capacity_ q →
  ∃ m', persistent_queue.push q x m = Some (true, m')
        ∧ length m' = length m
        ∧ ∀ b n,
            b + n ≤ persistent_queue.storage_ q + persistent_queue.end_ofs
            ∨ persistent_queue.data (persistent_queue.storage_ q) ≤ b →
            b + n ≤ persistent_queue.slot q (q_end q m)
            ∨ persistent_queue.slot q (q_end q m) + sizeof ≤ b →
            peek m' b n = peek m b n.
Proof.
  intros Hh He Hs.
  set (e := q_end q m) in *. set (s := q_size q m) in *.
  set (m1 := set_value m (persistent_queue.slot q e) x).
  assert (length m1 = length m) as Hl1 by (by apply set_value_length).
  destruct (q_increment_run q
              (persistent_queue.storage_ q + persistent_queue.end_ofs) m1)
    as (m2 & Hinc & Hl2 & Hend & Hfr); [bounds|].
  set (m3 := set_word m2
               (persistent_queue.storage_ q + persistent_queue.size_ofs)
               (wrap (s + 1))).
  assert (length m3 = length m2) as Hl3 by (apply set_word_length; bounds).
  assert (word_at m1 (persistent_queue.storage_ q + persistent_queue.size_ofs) = s)
    as Hs1.
  { subst s. unfold q_size. apply word_at_set_value; bounds. }
  assert (word_at m2 (persistent_queue.storage_ q + persistent_queue.size_ofs) = s)
    as Hs2.
  { rewrite <- Hs1. unfold word_at. f_equal. apply Hfr. bounds. }
  exists m3. split; [|split; [lia|]].
  - unfold persistent_queue.push.
    mstep q_full_run. fold s.
    apply N.eqb_neq in Hs. rewrite Hs.
    mstep load_unsigned_run. fold (q_end q m). fold e. fold m1.
    mstep store_T_run. fold m1.
    erewrite bind_run by exact Hinc. cbv beta.
    mstep load_size_t_run. rewrite Hs2.
    mstep store_size_t_run. done.
  - intros b n Hhead Hslot. subst m3.
    rewrite peek_set_word by bounds.
    rewrite Hfr by bounds.
    subst m1. apply peek_set_value; [exact He|exact Hslot].
Qed.

(** A successful [pop] writes [begin] and [size] and nothing else. *)
Lemma q_pop_touches q m :
  q_header_fits q m → q_size q m ≠ 0 →
  ∃ m', persistent_queue.pop q m = Some (true, m')
        ∧ length m' = length m
        ∧ ∀ b n,
            b + n ≤ persistent_queue.storage_ q + persistent_queue.begin_ofs
            ∨ persistent_queue.data (persistent_queue.storage_ q) ≤ b
            ∨ (persistent_queue.storage_ q + persistent_queue.end_ofs ≤ b
               ∧ b + n ≤ persistent_queue.storage_ q + persistent_queue.size_ofs) →
            peek m' b n = peek m b n.
Proof.
  intros Hh Hs. set (s := q_size q m) in *.
  destruct (q_increment_run q
              (persistent_queue.storage_ q + persistent_queue.begin_ofs) m)
    as (m2 & Hinc & Hl2 & Hbeg & Hfr); [bounds|].
  set (m3 := set_word m2
               (persistent_queue.storage_ q + persistent_queue.size_ofs)
               (wrap (s + UINT_MOD - 1))).
  assert (length m3 = length m2) as Hl3 by (apply set_word_length; bounds).
  assert (word_at m2 (persistent_queue.storage_ q + persistent_queue.size_ofs) = s)
    as Hs2.
  { subst s. unfold q_size, word_at. f_equal. apply Hfr. bounds. }
  exists m3. split; [|split; [lia|]].
  - unfold persistent_queue.pop.
    mstep q_empty_run. fold s. apply N.eqb_neq in Hs. rewrite Hs.
    erewrite bind_run by exact Hinc. cbv beta.
    mstep load_size_t_run. rewrite Hs2.
    mstep store_size_t_run. done.
  - intros b n Hd. subst m3.
    rewrite peek_set_word by bounds. apply Hfr. bounds.
Qed.

(** One call the FIFO admits: what it returns, the FIFO it leaves, and the
    bytes it stays within. *)
Lemma q_do_confined q m (s : @fifo T) c r s1 :
  q_wf q m → q_models q m s →
  fifo_do (persistent_queue.capacity_ q) s c = Some (r, s1) →
  ∃ m1, q_do q c m = Some (r, m1)
        ∧ q_signature q m1 = q_signature q m
        ∧ q_models q m1 s1
        ∧ same_outside (persistent_queue.storage_ q) (q_footprint q) m m1.
Proof.
  intros Hwf Hm Hdo.
  pose proof (q_wf_header q m Hwf) as Hh.
  pose proof (q_models_size q m s Hm) as Hsz.
  destruct c as [x| |]; cbn [fifo_do q_do] in *.
  - destruct (N.of_nat (length (items s)) =? _) eqn:E.
    + injection Hdo as <- <-. apply N.eqb_eq in E.
      exists m. split; [|split; [done|split; [done|apply same_outside_refl]]].
      erewrite bind_run; [done|]. apply q_push_full; [done|congruence].
    + injection Hdo as <- <-. apply N.eqb_neq in E.
      destruct (q_push_models q m s x Hwf Hm E) as (m1 & Hrun & Hl & Hsig & Hm1).
      exists m1. split; [by erewrite bind_run|]. split; [done|]. split; [done|].
      destruct Hm as ((_ & _ & He & _) & _).
      destruct (q_push_touches q m x Hh) as (m1' & Hrun' & _ & Hfr).
      { by apply q_wf_slot. } { congruence. }
      rewrite Hrun in Hrun'. injection Hrun' as <-.
      split; [done|]. intros b k Hd. destruct Hwf as (? & ? & ?).
      apply Hfr; footprint.
  - destruct (items s) as [|x rest] eqn:Hit.
    + injection Hdo as <- <-.
      exists m. split; [|split; [done|split; [done|apply same_outside_refl]]].
      erewrite bind_run; [done|]. apply q_pop_empty; [done|]. by rewrite Hsz.
    + injection Hdo as <- <-.
      destruct (q_pop_models q m s x rest Hwf Hm Hit)
        as (_ & m1 & Hrun & Hl & Hsig & Hm1).
      exists m1. split; [by erewrite bind_run|]. split; [done|]. split; [done|].
      destruct (q_pop_touches q m Hh) as (m1' & Hrun' & _ & Hfr).
      { rewrite Hsz. cbn [length]. lia. }
      rewrite Hrun in Hrun'. injection Hrun' as <-.
      split; [done|]. intros b k Hd. destruct Hwf as (? & ? & ?).
      apply Hfr; footprint.
  - destruct (items s) as [|x rest] eqn:Hit; [done|].
    injection Hdo as <- <-.
    destruct (q_pop_models q m s x rest Hwf Hm Hit) as (Hfront & _).
    exists m. split; [by erewrite bind_run|]. split; [done|]. split; [done|].
    apply same_outside_refl.
Qed.

Lemma q_run_confined q cs : ∀ m (s : @fifo T) rs s',
  q_wf q m → q_models q m s →
  fifo_run (persistent_queue.capacity_ q) s cs = Some (rs, s') →
  ∃ m', q_run q cs m = Some (rs, m')
        ∧ q_signature q m' = q_signature q m
        ∧ q_models q m' s'
        ∧ same_outside (persistent_queue.storage_ q) (q_footprint q) m m'.
Proof.
  induction cs as [|c cs IH]; intros m s rs s' Hwf Hm Hrun.
  - injection Hrun as <- <-. exists m.
    split; [done|]. split; [done|]. split; [done|]. apply same_outside_refl.
  - cbn [fifo_run] in Hrun.
    destruct (fifo_do _ s c) as [[r s1]|] eqn:Hdo; [|done].
    destruct (fifo_run _ s1 cs) as [[rs1 s2]|] eqn:Hrest; [|done].
    injection Hrun as <- <-.
    destruct (q_do_confined q m s c r s1 Hwf Hm Hdo)
      as (m1 & Hstep & Hsig1 & Hm1 & Hout1).
    destruct (IH m1 s1 rs1 s2) as (m2 & Hrun2 & Hsig2 & Hm2 & Hout2);
      [apply (q_wf_length q m); [apply Hout1|done]|done..|].
    exists m2. split; [|split; [congruence|split; [done|]]].
    + cbn [q_run]. erewrite bind_run by exact Hstep.
      erewrite bind_run by exact Hrun2. done.
    + by apply (same_outside_trans _ _ m m1 m2).
Qed.

End queue_writes.

(** * Beyond the claims: the queue *)

Section queue_coverage.
Import EEPROM Platform.
Context {T : Type} `{Storable T}.
Implicit Types (q : persistent_queue.handle) (m : buffer) (x : T).

Lemma q_run_app q cs1 : ∀ cs2 m rs1 m1 rs2 m2,
  q_run q cs1 m = Some (rs1, m1) →
  q_run q cs2 m1 = Some (rs2, m2) →
  q_run q (cs1 ++ cs2) m = Some (rs1 ++ rs2, m2).
Proof.
  induction cs1 as [|c cs1 IH]; intros cs2 m rs1 m1 rs2 m2 H1 H2.
  - injection H1 as <- <-. done.
  - cbn [q_run app] in *. unfold bind in H1 |- *.
    destruct (q_do q c m) as [[r ma]|]; [|done].
    destruct (q_run q cs1 ma) as [[rs mb]|] eqn:E; [|done].
    injection H1 as <- <-.
    by rewrite (IH cs2 ma rs mb rs2 m2 E H2).
Qed.

(** X1.  After any sequence of calls the FIFO admits, [size()] is the number
    of queued values (successful pushes less successful pops), [empty()]
    tells whether that number is 0 and [full()] whether it is the capacity. *)
Theorem q_size_counts_items q m (s s' : @fifo T) cs rs :
  q_wf q m → q_models q m s →
  fifo_run (persistent_queue.capacity_ q) s cs = Some (rs, s') →
  ∃ m', q_run q cs m = Some (rs, m')
        ∧ persistent_queue.size q m'
          = Some (N.of_nat (length (items s')), m')
        ∧ persistent_queue.empty q m'
          = Some (N.of_nat (length (items s')) =? 0, m')
        ∧ persistent_queue.full q m'
          = Some (N.of_nat (length (items s'))
                  =? persistent_queue.capacity_ q, m').
Proof.
  intros Hwf Hm Hrun.
  destruct (q_run_confined q cs m s rs s' Hwf Hm Hrun)
    as (m' & Hrun' & _ & Hm' & Hl & _).
  assert (q_header_fits q m') as Hh.
  { apply q_wf_header. by apply (q_wf_length q m). }
  exists m'. split; [done|].
  rewrite q_size_run, q_empty_run, q_full_run by done.
  by rewrite (q_models_size q m' s' Hm').
Qed.

(** X2.  On an empty queue, [capacity] pushes all succeed; [full()] is then
    true and one more [push] returns false and leaves the buffer as it is. *)
Theorem q_full_after_capacity_pushes q m (ps : list T) :
  q_wf q m → q_invariant q m → q_size q m = 0 →
  N.of_nat (length ps) = persistent_queue.capacity_ q →
  ∃ m', q_run q (push_all ps) m = Some ((λ _, Pushed true) <$> ps, m')
        ∧ persistent_queue.full q m' = Some (true, m')
        ∧ ∀ x, persistent_queue.push q x m' = Some (false, m').
Proof.
  intros Hwf Hi Hs Hlen.
  pose proof (q_invariant_models q m Hi) as Hm.
  assert (q_contents q m = []) as Hc by (unfold q_contents; by rewrite Hs).
  rewrite Hc in Hm.
  pose proof (fifo_run_push_all (persistent_queue.capacity_ q) ps
                {| oldest := q_begin q m; items := [] |}) as Hspec.
  cbn [items oldest length app] in Hspec.
  destruct (q_run_confined q (push_all ps) m _ _ _ Hwf Hm (Hspec ltac:(lia)))
    as (m' & Hrun & _ & Hm' & Hl & _).
  assert (q_wf q m') as Hwf' by (by apply (q_wf_length q m)).
  pose proof (q_wf_header q m' Hwf') as Hh.
  pose proof (q_models_size q m' _ Hm') as Hsz. cbn [items app] in Hsz.
  exists m'. split; [done|]. split.
  - apply (q_models_full q m' _ Hwf' Hm'). by cbn [items app].
  - intros x. apply q_push_full; [done|congruence].
Qed.

(** With capacity 0 every call the FIFO admits fails and writes nothing. *)
Lemma q_run_zero_capacity q m cs : ∀ b rs (s' : @fifo T),
  persistent_queue.capacity_ q = 0 → q_header_fits q m → q_size q m = 0 →
  fifo_run 0 {| oldest := b; items := [] |} cs = Some (rs, s') →
  q_run q cs m = Some (rs, m).
Proof.
  induction cs as [|c cs IH]; intros b rs s' Hc Hh Hs Hrun.
  - by injection Hrun as <- <-.
  - destruct c as [x| |]; simpl in Hrun; [| |done].
    + destruct (fifo_run 0 {| oldest := b; items := [] |} cs)
        as [[rs1 s1]|] eqn:E; [|done].
      injection Hrun as <- <-. cbn [q_run q_do].
      erewrite bind_run; [|erewrite bind_run; [done|]].
      * erewrite bind_run by (by apply (IH b rs1 s1)). done.
      * apply q_push_full; [done|congruence].
    + destruct (fifo_run 0 {| oldest := b; items := [] |} cs)
        as [[rs1 s1]|] eqn:E; [|done].
      injection Hrun as <- <-. cbn [q_run q_do].
      erewrite bind_run; [|erewrite bind_run; [done|]].
      * erewrite bind_run by (by apply (IH b rs1 s1)). done.
      * by apply q_pop_empty.
Qed.

(** X3.  [storage_size(capacity)] bytes at [offset] are enough: when they lie
    in the buffer and the region is mountable (no signature, or the signature
    and a valid queue state for this capacity), the constructor and every
    sequence of calls the FIFO admits after it return (no access leaves the
    buffer), and no byte before [offset] or from
    [offset + storage_size(capacity)] on is changed. *)
Theorem q_storage_size_suffices q m0 (s s' : @fifo T) cs rs :
  persistent_queue.data 0 + persistent_queue.capacity_ q * sizeof < UINT_MOD →
  fits m0 (persistent_queue.storage_ q)
       (persistent_queue.storage_size (persistent_queue.capacity_ q)) →
  q_mountable q m0 s →
  fifo_run (persistent_queue.capacity_ q) s cs = Some (rs, s') →
  ∃ m1 m',
    persistent_queue.persistent_queue
      (persistent_queue.storage_ q) (persistent_queue.capacity_ q) m0
    = Some (q, m1)
    ∧ q_run q cs m1 = Some (rs, m')
    ∧ same_outside (persistent_queue.storage_ q)
        (persistent_queue.storage_size (persistent_queue.capacity_ q)) m0 m'.
Proof.
  intros Hsmall Hfit Hmnt Hrun.
  rewrite q_storage_size_exact in * by done.
  assert (q_header_fits q m0) as Hh0 by bounds.
  assert (persistent_queue.capacity_ q < UINT_MOD) as Hc1.
  { pose proof sizeof_pos. bounds. }
  (* the state the constructor leaves *)
  assert (∃ m1, persistent_queue.persistent_queue
                  (persistent_queue.storage_ q) (persistent_queue.capacity_ q) m0
                = Some (q, m1)
                ∧ same_outside (persistent_queue.storage_ q)
                    (persistent_queue.data 0
                     + persistent_queue.capacity_ q * sizeof) m0 m1
                ∧ ((0 < persistent_queue.capacity_ q ∧ q_models q m1 s)
                   ∨ (persistent_queue.capacity_ q = 0 ∧ q_size q m1 = 0
                      ∧ items s = [])))
    as (m1 & Hmount & Hout1 & Hstate).
  { destruct Hmnt as [[Hsig ->]|[Hsig Hstate]].
    - destruct (q_mount_init q m0 Hh0 Hsig)
        as (m1 & Hmount & Hl1 & _ & _ & _ & Hs1 & Hfr1).
      exists m1. split; [done|]. split.
      { split; [done|]. intros b k Hd. apply Hfr1. bounds. }
      destruct (decide (persistent_queue.capacity_ q = 0)) as [E|E].
      + right. done.
      + left. split; [lia|].
        apply (q_mount_models q m0 m1); [|done..].
        split; [lia|]. split; [done|]. bounds.
    - exists m0. split; [|split; [apply same_outside_refl|done]].
      apply q_mount_reuse; [bounds|done]. }
  destruct Hstate as [[Hc0 Hm1]|(Hc0 & Hs1 & Hit)].
  - assert (q_wf q m1) as Hwf1.
    { split; [done|]. split; [done|]. destruct Hout1 as [Hl _]. bounds. }
    destruct (q_run_confined q cs m1 s rs s' Hwf1 Hm1 Hrun)
      as (m' & Hrun' & _ & _ & Hout).
    exists m1, m'. split; [done|]. split; [done|].
    by apply (same_outside_trans _ _ m0 m1 m').
  - exists m1, m1. split; [done|]. split; [|done].
    destruct s as [b its]. cbn [items] in Hit. subst its.
    rewrite Hc0 in Hrun.
    apply (q_run_zero_capacity q m1 cs b rs s'); [done| |done..].
    destruct Hout1 as [Hl _]. bounds.
Qed.

(** X4.  [storage_size(capacity)] bytes are also needed: on a buffer that
    ends before [offset + storage_size(capacity)], the push into the last
    slot ([end = capacity - 1]) is an access outside the buffer. *)
Theorem q_short_buffer_push_fails q m x :
  0 < persistent_queue.capacity_ q →
  persistent_queue.data 0 + persistent_queue.capacity_ q * sizeof < UINT_MOD →
  q_header_fits q m →
  N.of_nat (length m)
  < persistent_queue.storage_ q
    + persistent_queue.storage_size (persistent_queue.capacity_ q) →
  q_end q m + 1 = persistent_queue.capacity_ q →
  q_size q m ≠ persistent_queue.capacity_ q →
  persistent_queue.push q x m = None.
Proof.
  intros Hc0 Hsmall Hh Hshort He Hs.
  rewrite q_storage_size_exact in Hshort by done.
  unfold persistent_queue.push.
  mstep q_full_run. apply N.eqb_neq in Hs. rewrite Hs.
  mstep load_unsigned_run. fold (q_end q m).
  unfold bind. rewrite store_T_fails; [done|].
  replace (persistent_queue.capacity_ q) with (q_end q m + 1) in Hshort by done.
  set (e := q_end q m) in *. clearbody e. bounds.
Qed.

(** X5.  A restart in the middle of a session is invisible: running some
    calls, building the handle again with the same offset and capacity, and
    running more calls returns what running all the calls on the first handle
    returns, and leaves the same buffer. *)
Theorem q_restart_is_invisible q m (s s1 s2 : @fifo T) cs1 cs2 rs1 rs2 :
  q_wf q m → q_models q m s →
  q_signature q m = persistent_queue.SIGNATURE →
  fifo_run (persistent_queue.capacity_ q) s cs1 = Some (rs1, s1) →
  fifo_run (persistent_queue.capacity_ q) s1 cs2 = Some (rs2, s2) →
  ∃ m', (let* r1 := q_run q cs1 in
         let* q' := q_restart q in
         let* r2 := q_run q' cs2 in
         ret (r1 ++ r2)) m = Some (rs1 ++ rs2, m')
        ∧ q_run q (cs1 ++ cs2) m = Some (rs1 ++ rs2, m')
        ∧ q_models q m' s2.
Proof.
  intros Hwf Hm Hsig Hrun1 Hrun2.
  destruct (q_run_confined q cs1 m s rs1 s1 Hwf Hm Hrun1)
    as (m1 & Hq1 & Hsig1 & Hm1 & Hl1 & _).
  assert (q_wf q m1) as Hwf1 by (by apply (q_wf_length q m)).
  destruct (q_run_confined q cs2 m1 s1 rs2 s2 Hwf1 Hm1 Hrun2)
    as (m2 & Hq2 & _ & Hm2 & _).
  assert (q_restart q m1 = Some (q, m1)) as Hre.
  { apply q_mount_reuse; [|congruence].
    pose proof (q_wf_header q m1 Hwf1). bounds. }
  exists m2. split; [|split; [|done]].
  - erewrite bind_run by exact Hq1. erewrite bind_run by exact Hre.
    erewrite bind_run by exact Hq2. done.
  - by apply (q_run_app q cs1 cs2 m rs1 m1 rs2 m2).
Qed.

(** X6.  A successful [pop()] rewrites [begin] and [size] and no other byte:
    [signature], [end] and every slot keep their bytes, so the popped value
    is still in the slot [begin] pointed to. *)
Theorem q_pop_writes_begin_and_size q m :
  q_header_fits q m → q_size q m ≠ 0 →
  ∃ m', persistent_queue.pop q m = Some (true, m')
        ∧ (∀ b n,
             b + n ≤ persistent_queue.storage_ q + persistent_queue.begin_ofs
             ∨ persistent_queue.data (persistent_queue.storage_ q) ≤ b
             ∨ (persistent_queue.storage_ q + persistent_queue.end_ofs ≤ b
                ∧ b + n ≤ persistent_queue.storage_ q
                          + persistent_queue.size_ofs) →
             peek m' b n = peek m b n)
        ∧ q_slot q m' (q_begin q m) = q_slot q m (q_begin q m).
Proof.
  intros Hh Hs.
  destruct (q_pop_touches q m Hh Hs) as (m' & Hrun & _ & Hfr).
  exists m'. split; [done|]. split; [exact Hfr|].
  unfold q_slot, value_at. f_equal. apply Hfr. bounds.
Qed.

(** X7.  A queue of capacity 0 is inert: in every state reached from a fresh
    mount it is empty and full at once, and [push] and [pop] return false
    without writing. *)
Theorem q_zero_capacity_inert q m0 m :
  persistent_queue.capacity_ q = 0 → q_header_fits q m0 →
  q_reachable q m0 m →
  persistent_queue.empty q m = Some (true, m)
  ∧ persistent_queue.full q m = Some (true, m)
  ∧ (∀ x, persistent_queue.push q x m = Some (false, m))
  ∧ persistent_queue.pop q m = Some (false, m).
Proof.
  intros Hc Hh0 Hr.
  assert (length m = length m0 ∧ q_size q m = 0) as [Hl Hs].
  { induction Hr as [m Hsig Hrun|m x r m' _ [Hl Hs] Hrun|m r m' _ [Hl Hs] Hrun].
    - destruct (q_mount_init q m0 Hh0 Hsig) as (m1 & Hrun1 & Hl & _ & _ & _ & Hs & _).
      rewrite Hrun1 in Hrun. by injection Hrun as <-.
    - rewrite q_push_full in Hrun by (bounds || congruence).
      by injection Hrun as <- <-.
    - rewrite q_pop_empty in Hrun by (bounds || congruence).
      by injection Hrun as <- <-. }
  assert (q_header_fits q m) as Hh by bounds.
  rewrite q_empty_run, q_full_run by done. rewrite Hs, Hc.
  split; [done|]. split; [done|]. split.
  - intros x. apply q_push_full; [done|congruence].
  - by apply q_pop_empty.
Qed.

(** X8.  [increment] on an index below the capacity stores the index plus
    one modulo the capacity, which is again below the capacity, and writes
    no byte outside that index. *)
Theorem q_increment_modular q m idx :
  fits m idx 4 →
  persistent_queue.capacity_ q < UINT_MOD →
  word_at m idx < persistent_queue.capacity_ q →
  ∃ m', persistent_queue.increment q idx m = Some (tt, m')
        ∧ word_at m' idx
          = (word_at m idx + 1) mod persistent_queue.capacity_ q
        ∧ word_at m' idx < persistent_queue.capacity_ q
        ∧ same_outside idx 4 m m'.
Proof.
  intros Hf Hc Hi.
  destruct (q_increment_run q idx m Hf) as (m' & Hrun & Hl & Hw & Hfr).
  rewrite next_index_mod in Hw by done.
  exists m'. split; [done|]. split; [done|]. split.
  - rewrite Hw. apply N.mod_upper_bound. lia.
  - by split.
Qed.

End queue_coverage.

(** * Beyond the claims: the vector *)

Section vector_coverage.
Import EEPROM Platform.
Context {T : Type} `{Storable T}.
Implicit Types (v : persistent_vector.handle) (m : buffer) (x : T) (l : list T).

(** A successful [push_back] writes the slot at [size], then [size]. *)
Lemma v_push_back_touches v m x :
  v_header_fits v m → v_slot_fits v m (v_size v m) →
  v_size v m ≠ persistent_vector.capacity_ v →
  ∃ m', persistent_vector.push_back v x m = Some (true, m')
        ∧ length m' = length m
        ∧ ∀ b n,
            b + n ≤ persistent_vector.storage_ v + persistent_vector.size_ofs
            ∨ persistent_vector.data (persistent_vector.storage_ v) ≤ b →
            b + n ≤ persistent_vector.slot v (v_size v m)
            ∨ persistent_vector.slot v (v_size v m) + sizeof ≤ b →
            peek m' b n = peek m b n.
Proof.
  intros Hh Hsl Hs. set (s := v_size v m) in *.
  set (m1 := set_value m (persistent_vector.slot v s) x).
  assert (length m1 = length m) as Hl1 by (by apply set_value_length).
  set (m2 := set_word m1
               (persistent_vector.storage_ v + persistent_vector.size_ofs)
               (wrap (s + 1))).
  assert (length m2 = length m1) as Hl2 by (apply set_word_length; bounds).
  assert (word_at m1 (persistent_vector.storage_ v + persistent_vector.size_ofs)
          = s) as Hs1.
  { subst s. unfold v_size. apply word_at_set_value; bounds. }
  exists m2. split; [|split; [lia|]].
  - unfold persistent_vector.push_back.
    mstep v_full_run. fold s. apply N.eqb_neq in Hs. rewrite Hs.
    mstep load_size_t_run. fold (v_size v m). fold s.
    mstep store_T_run. fold m1.
    mstep load_size_t_run. rewrite Hs1.
    mstep store_size_t_run. done.
  - intros b n Hhead Hslot. subst m2.
    rewrite peek_set_word by bounds.
    subst m1. apply peek_set_value; [exact Hsl|exact Hslot].
Qed.

(** A successful [pop_back] writes [size] and nothing else. *)
Lemma v_pop_back_touches v m :
  v_header_fits v m → v_size v m ≠ 0 →
  ∃ m', persistent_vector.pop_back v m = Some (true, m')
        ∧ same_outside
            (persistent_vector.storage_ v + persistent_vector.size_ofs) 4 m m'.
Proof.
  intros Hh Hs. set (s := v_size v m) in *.
  set (m1 := set_word m
               (persistent_vector.storage_ v + persistent_vector.size_ofs)
               (wrap (s + UINT_MOD - 1))).
  assert (length m1 = length m) as Hl1 by (apply set_word_length; bounds).
  exists m1. split; [|split; [done|]].
  - unfold persistent_vector.pop_back.
    mstep v_empty_run. fold s. apply N.eqb_neq in Hs. rewrite Hs.
    mstep load_size_t_run. fold (v_size v m). fold s.
    mstep store_size_t_run. done.
  - intros b k Hd. subst m1. apply peek_set_word; bounds.
Qed.

Lemma v_models_size v m l :
  v_models v m l → v_size v m = N.of_nat (length l).
Proof. intros [_ <-]. rewrite v_contents_length. lia. Qed.

Lemma v_do_refines v m l c r l1 :
  v_wf v m → v_models v m l →
  vec_do (persistent_vector.capacity_ v) l c = Some (r, l1) →
  ∃ m1, v_do v c m = Some (r, m1)
        ∧ v_signature v m1 = v_signature v m
        ∧ v_models v m1 l1
        ∧ same_outside (persistent_vector.storage_ v) (v_footprint v) m m1.
Proof.
  intros Hwf Hm Hdo.
  pose proof (v_wf_header v m Hwf) as Hh.
  pose proof (v_models_size v m l Hm) as Hsz.
  destruct Hm as [Hle Hc].
  destruct c as [x| |pos| | |]; cbn [vec_do v_do] in *.
  - destruct (N.of_nat (length l) =? _) eqn:E.
    + injection Hdo as <- <-. apply N.eqb_eq in E.
      exists m. split; [|split; [done|split; [done|apply same_outside_refl]]].
      erewrite bind_run; [done|]. apply v_push_back_full; [done|congruence].
    + injection Hdo as <- <-. apply N.eqb_neq in E.
      assert (v_size v m < persistent_vector.capacity_ v) as Hlt by lia.
      destruct (v_push_back_contents v m x Hwf Hlt)
        as (m1 & Hrun & Hl & Hsig & Hs1 & Hc1).
      exists m1. split; [by erewrite bind_run|]. split; [done|]. split.
      { split; [lia|]. by rewrite Hc1, Hc. }
      destruct (v_push_back_touches v m x Hh) as (m1' & Hrun' & _ & Hfr).
      { by apply v_wf_slot. } { lia. }
      rewrite Hrun in Hrun'. injection Hrun' as <-.
      split; [done|]. intros b k Hd. destruct Hwf as (? & ?).
      apply Hfr; footprint.
  - destruct l as [|x0 l0] eqn:El.
    + injection Hdo as <- <-.
      exists m. split; [|split; [done|split; [done|apply same_outside_refl]]].
      erewrite bind_run; [done|]. by apply v_pop_back_empty.
    + injection Hdo as <- <-.
      assert (v_size v m ≠ 0) as Hne by (rewrite Hsz; cbn [length]; lia).
      destruct (v_pop_back_contents v m Hwf Hne)
        as (m1 & Hrun & Hl & Hsig & Hs1 & Hc1).
      exists m1. split; [by erewrite bind_run|]. split; [done|]. split.
      { split; [lia|]. rewrite Hc1, Hc, Hsz. f_equal. cbn [length]. lia. }
      destruct (v_pop_back_touches v m Hh Hne) as (m1' & Hrun' & Hout).
      rewrite Hrun in Hrun'. injection Hrun' as <-.
      eapply same_outside_weaken; [| |exact Hout]; footprint.
  - destruct (l !! N.to_nat pos) as [x|] eqn:E; [|done].
    injection Hdo as <- <-.
    exists m. split; [|split; [done|split; [done|apply same_outside_refl]]].
    erewrite bind_run; [done|].
    rewrite <- (N2Nat.id pos). apply v_subscript_contents; [done..|].
    by rewrite Hc.
  - injection Hdo as <- <-.
    exists m. split; [|split; [done|split; [done|apply same_outside_refl]]].
    erewrite bind_run by (by apply v_size_run). by rewrite Hsz.
  - injection Hdo as <- <-.
    exists m. split; [|split; [done|split; [done|apply same_outside_refl]]].
    erewrite bind_run by (by apply v_empty_run). by rewrite Hsz.
  - injection Hdo as <- <-.
    exists m. split; [|split; [done|split; [done|apply same_outside_refl]]].
    erewrite bind_run by (by apply v_full_run). by rewrite Hsz.
Qed.

Lemma v_run_refines v cs : ∀ m l rs l',
  v_wf v m → v_models v m l →
  vec_run (persistent_vector.capacity_ v) l cs = Some (rs, l') →
  ∃ m', v_run v cs m = Some (rs, m')
        ∧ v_signature v m' = v_signature v m
        ∧ v_models v m' l'
        ∧ same_outside (persistent_vector.storage_ v) (v_footprint v) m m'.
Proof.
  induction cs as [|c cs IH]; intros m l rs l' Hwf Hm Hrun.
  - injection Hrun as <- <-. exists m.
    split; [done|]. split; [done|]. split; [done|]. apply same_outside_refl.
  - cbn [vec_run] in Hrun.
    destruct (vec_do _ l c) as [[r l1]|] eqn:Hdo; [|done].
    destruct (vec_run _ l1 cs) as [[rs1 l2]|] eqn:Hrest; [|done].
    injection Hrun as <- <-.
    destruct (v_do_refines v m l c r l1 Hwf Hm Hdo)
      as (m1 & Hstep & Hsig1 & Hm1 & Hout1).
    destruct (IH m1 l1 rs1 l2) as (m2 & Hrun2 & Hsig2 & Hm2 & Hout2);
      [apply (v_wf_length v m); [apply Hout1|done]|done..|].
    exists m2. split; [|split; [congruence|split; [done|]]].
    + cbn [v_run]. erewrite bind_run by exact Hstep.
      erewrite bind_run by exact Hrun2. done.
    + by apply (same_outside_trans _ _ m m1 m2).
Qed.

Lemma v_run_app v cs1 : ∀ cs2 m rs1 m1 rs2 m2,
  v_run v cs1 m = Some (rs1, m1) →
  v_run v cs2 m1 = Some (rs2, m2) →
  v_run v (cs1 ++ cs2) m = Some (rs1 ++ rs2, m2).
Proof.
  induction cs1 as [|c cs1 IH]; intros cs2 m rs1 m1 rs2 m2 H1 H2.
  - injection H1 as <- <-. done.
  - cbn [v_run app] in *. unfold bind in H1 |- *.
    destruct (v_do v c m) as [[r ma]|]; [|done].
    destruct (v_run v cs1 ma) as [[rs mb]|] eqn:E; [|done].
    injection H1 as <- <-.
    by rewrite (IH cs2 ma rs mb rs2 m2 E H2).
Qed.

Lemma v_mount_models v m m' :
  v_wf v m → v_signature v m ≠ persistent_vector.SIGNATURE →
  persistent_vector.persistent_vector
    (persistent_vector.storage_ v) (persistent_vector.capacity_ v) m
  = Some (v, m') →
  v_models v m' []
  ∧ same_outside (persistent_vector.storage_ v) (persistent_vector.data 0) m m'.
Proof.
  intros Hwf Hsig Hrun.
  destruct (v_mount_init v m (v_wf_header v m Hwf) Hsig)
    as (m1 & Hrun1 & Hl & _ & Hs & Hfr).
  rewrite Hrun1 in Hrun. injection Hrun as <-.
  split; [split|split].
  - rewrite Hs. lia.
  - unfold v_contents. by rewrite Hs.
  - done.
  - intros b k Hd. apply Hfr. bounds.
Qed.

End vector_coverage.

Section vector_coverage_theorems.
Import EEPROM Platform.
Context {T : Type} `{Storable T}.
Implicit Types (v : persistent_vector.handle) (m : buffer) (x : T) (l : list T).

(** X9.  The vector is a list bounded by the capacity: every sequence of
    [push_back], [pop_back], [operator[]] at a position below the size,
    [size], [empty] and [full] returns what the same calls return on the
    list, [push_back] failing exactly when the list has [capacity] elements
    and [pop_back] exactly when it has none. *)
Theorem v_refines_bounded_list v m l l' cs rs :
  v_wf v m → v_models v m l →
  vec_run (persistent_vector.capacity_ v) l cs = Some (rs, l') →
  ∃ m', v_run v cs m = Some (rs, m') ∧ v_models v m' l'.
Proof.
  intros Hwf Hm Hrun.
  destruct (v_run_refines v cs m l rs l' Hwf Hm Hrun) as (m' & ? & _ & ? & _).
  by exists m'.
Qed.

(** X10.  [storage_size(capacity)] bytes at [offset] are enough for the
    vector: when they lie in the buffer and the region is mountable (no
    signature, or the signature and a valid vector state for this capacity),
    the constructor and every sequence of calls the list admits after it
    return, and no byte before [offset] or from
    [offset + storage_size(capacity)] on is changed. *)
Theorem v_storage_size_suffices v m0 l l' cs rs :
  persistent_vector.data 0 + persistent_vector.capacity_ v * sizeof < UINT_MOD →
  fits m0 (persistent_vector.storage_ v)
       (persistent_vector.storage_size (persistent_vector.capacity_ v)) →
  v_mountable v m0 l →
  vec_run (persistent_vector.capacity_ v) l cs = Some (rs, l') →
  ∃ m1 m',
    persistent_vector.persistent_vector
      (persistent_vector.storage_ v) (persistent_vector.capacity_ v) m0
    = Some (v, m1)
    ∧ v_run v cs m1 = Some (rs, m')
    ∧ same_outside (persistent_vector.storage_ v)
        (persistent_vector.storage_size (persistent_vector.capacity_ v)) m0 m'.
Proof.
  intros Hsmall Hfit Hmnt Hrun.
  rewrite v_storage_size_exact in * by done.
  assert (v_wf v m0) as Hwf.
  { split; [|exact Hfit]. pose proof sizeof_pos. bounds. }
  assert (∃ m1, persistent_vector.persistent_vector
                  (persistent_vector.storage_ v) (persistent_vector.capacity_ v) m0
                = Some (v, m1)
                ∧ same_outside (persistent_vector.storage_ v)
                    (persistent_vector.data 0
                     + persistent_vector.capacity_ v * sizeof) m0 m1
                ∧ v_models v m1 l)
    as (m1 & Hmount & Hout1 & Hm1).
  { destruct Hmnt as [[Hsig ->]|[Hsig Hm0]].
    - destruct (v_mount_init v m0 (v_wf_header v m0 Hwf) Hsig)
        as (m1 & Hmount & Hl1 & _).
      destruct (v_mount_models v m0 m1 Hwf Hsig Hmount) as (Hm1 & Hout1).
      exists m1. split; [done|]. split; [|done].
      eapply same_outside_weaken; [| |exact Hout1]; footprint.
    - exists m0. split; [|split; [apply same_outside_refl|done]].
      apply v_mount_reuse; [|done].
      pose proof (v_wf_header v m0 Hwf). bounds. }
  assert (v_wf v m1) as Hwf1.
  { apply (v_wf_length v m0); [apply Hout1|done]. }
  destruct (v_run_refines v cs m1 l rs l' Hwf1 Hm1 Hrun)
    as (m' & Hrun' & _ & _ & Hout).
  exists m1, m'. split; [done|]. split; [done|].
  by apply (same_outside_trans _ _ m0 m1 m').
Qed.

(** X11.  [storage_size(capacity)] bytes are also needed for the vector: on
    a buffer that ends before [offset + storage_size(capacity)], the
    [push_back] into the last slot ([size = capacity - 1]) is an access
    outside the buffer. *)
Theorem v_short_buffer_push_back_fails v m x :
  persistent_vector.data 0 + persistent_vector.capacity_ v * sizeof < UINT_MOD →
  v_header_fits v m →
  N.of_nat (length m)
  < persistent_vector.storage_ v
    + persistent_vector.storage_size (persistent_vector.capacity_ v) →
  v_size v m + 1 = persistent_vector.capacity_ v →
  persistent_vector.push_back v x m = None.
Proof.
  intros Hsmall Hh Hshort Hs.
  rewrite v_storage_size_exact in Hshort by done.
  unfold persistent_vector.push_back.
  mstep v_full_run.
  assert (v_size v m ≠ persistent_vector.capacity_ v) as Hne by lia.
  apply N.eqb_neq in Hne. rewrite Hne.
  mstep load_size_t_run. fold (v_size v m).
  unfold bind. rewrite store_T_fails; [done|].
  replace (persistent_vector.capacity_ v) with (v_size v m + 1) in Hshort by done.
  set (s := v_size v m) in *. clearbody s. bounds.
Qed.

(** X12.  A restart in the middle of a session is invisible for the vector
    too: calls, a new handle with the same offset and capacity, and more
    calls return what all the calls on the first handle return, and leave
    the same buffer. *)
Theorem v_restart_is_invisible v m l l1 l2 cs1 cs2 rs1 rs2 :
  v_wf v m → v_models v m l →
  v_signature v m = persistent_vector.SIGNATURE →
  vec_run (persistent_vector.capacity_ v) l cs1 = Some (rs1, l1) →
  vec_run (persistent_vector.capacity_ v) l1 cs2 = Some (rs2, l2) →
  ∃ m', (let* r1 := v_run v cs1 in
         let* v' := v_restart v in
         let* r2 := v_run v' cs2 in
         ret (r1 ++ r2)) m = Some (rs1 ++ rs2, m')
        ∧ v_run v (cs1 ++ cs2) m = Some (rs1 ++ rs2, m')
        ∧ v_models v m' l2.
Proof.
  intros Hwf Hm Hsig Hrun1 Hrun2.
  destruct (v_run_refines v cs1 m l rs1 l1 Hwf Hm Hrun1)
    as (m1 & Hv1 & Hsig1 & Hm1 & Hl1 & _).
  assert (v_wf v m1) as Hwf1 by (by apply (v_wf_length v m)).
  destruct (v_run_refines v cs2 m1 l1 rs2 l2 Hwf1 Hm1 Hrun2)
    as (m2 & Hv2 & _ & Hm2 & _).
  assert (v_restart v m1 = Some (v, m1)) as Hre.
  { apply v_mount_reuse; [|congruence].
    pose proof (v_wf_header v m1 Hwf1). bounds. }
  exists m2. split; [|split; [|done]].
  - erewrite bind_run by exact Hv1. erewrite bind_run by exact Hre.
    erewrite bind_run by exact Hv2. done.
  - by apply (v_run_app v cs1 cs2 m rs1 m1 rs2 m2).
Qed.

(** X13.  [pop_back()] does not erase: afterwards the vector holds the list
    without its last value, and [operator[]] at the vacated position, which
    is no longer below [size()], still returns the popped value. *)
Theorem v_pop_back_leaves_value v m l x :
  v_wf v m → v_models v m (l ++ [x]) →
  ∃ m', persistent_vector.pop_back v m = Some (true, m')
        ∧ v_models v m' l
        ∧ persistent_vector.size v m' = Some (N.of_nat (length l), m')
        ∧ persistent_vector.subscript v (N.of_nat (length l)) m'
          = Some (x, m').
Proof.
  intros Hwf Hm.
  pose proof (v_models_size v m _ Hm) as Hsz.
  rewrite length_app in Hsz. cbn [length] in Hsz.
  destruct (v_run_refines v [PopBack] m (l ++ [x])
              [PoppedBack true] l Hwf Hm) as (m' & Hrun & _ & Hm' & Hl & _).
  { cbn [vec_run vec_do]. destruct (l ++ [x]) as [|y l0] eqn:E.
    - by destruct l.
    - rewrite <- E, length_app. cbn [length].
      replace (length l + 1 - 1)%nat with (length l) by lia.
      by rewrite take_app_length. }
  cbn [v_run v_do] in Hrun. unfold bind, ret in Hrun.
  destruct (persistent_vector.pop_back v m) as [[ok m1]|] eqn:Hpop; [|done].
  injection Hrun as -> ->.
  assert (v_wf v m') as Hwf' by (by apply (v_wf_length v m)).
  destruct (v_pop_back_run v m (v_wf_header v m Hwf))
    as (m2 & Hpop2 & _ & _ & _ & Hslots); [lia|].
  rewrite Hpop in Hpop2. injection Hpop2 as <-.
  exists m'. split; [done|]. split; [done|]. split.
  - rewrite v_size_run by (by apply v_wf_header).
    by rewrite (v_models_size v m' l Hm').
  - rewrite v_subscript_run.
    + rewrite Hslots. f_equal. f_equal.
      destruct Hm as [_ Hc].
      assert (v_contents v m !! length l = Some x) as Hx.
      { by rewrite Hc, lookup_app_r, Nat.sub_diag by lia. }
      by apply v_contents_lookup in Hx as [_ Hx].
    + apply v_wf_slot; [done|]. destruct Hm as [Hle _]. lia.
Qed.

(** X14.  A vector of capacity 0 is inert: in every state reached from a
    fresh mount it is empty and full at once, and [push_back] and [pop_back]
    return false without writing. *)
Theorem v_zero_capacity_inert v m0 m :
  persistent_vector.capacity_ v = 0 → v_header_fits v m0 →
  v_reachable v m0 m →
  persistent_vector.empty v m = Some (true, m)
  ∧ persistent_vector.full v m = Some (true, m)
  ∧ (∀ x, persistent_vector.push_back v x m = Some (false, m))
  ∧ persistent_vector.pop_back v m = Some (false, m).
Proof.
  intros Hc Hh0 Hr.
  assert (length m = length m0 ∧ v_size v m = 0) as [Hl Hs].
  { induction Hr as [m Hsig Hrun|m x r m' _ [Hl Hs] Hrun|m r m' _ [Hl Hs] Hrun].
    - destruct (v_mount_init v m0 Hh0 Hsig) as (m1 & Hrun1 & Hl & _ & Hs & _).
      rewrite Hrun1 in Hrun. by injection Hrun as <-.
    - rewrite v_push_back_full in Hrun by (bounds || congruence).
      by injection Hrun as <- <-.
    - rewrite v_pop_back_empty in Hrun by (bounds || congruence).
      by injection Hrun as <- <-. }
  assert (v_header_fits v m) as Hh by bounds.
  rewrite v_empty_run, v_full_run by done. rewrite Hs, Hc.
  split; [done|]. split; [done|]. split.
  - intros x. apply v_push_back_full; [done|congruence].
  - by apply v_pop_back_empty.
Qed.

End vector_coverage_theorems.

(** * Beyond the claims: containers side by side *)

Section views_outside.
Import EEPROM Platform.
Context {T : Type} `{Storable T}.

(** What a vector shows is read from its own footprint only. *)
Lemma v_models_outside (v : persistent_vector.handle) a n m m' (l : list T) :
  same_outside a n m m' →
  persistent_vector.storage_ v + v_footprint v ≤ a
  ∨ a + n ≤ persistent_vector.storage_ v →
  v_models v m l →
  v_signature v m' = v_signature v m ∧ v_models v m' l.
Proof.
  intros [Hl Hp] Hd [Hle Hc].
  assert (v_signature v m' = v_signature v m) as Hsig.
  { unfold v_signature, word_at. f_equal. apply Hp. footprint. }
  assert (v_size v m' = v_size v m) as Hs.
  { unfold v_size, word_at. f_equal. apply Hp. footprint. }
  split; [done|]. split; [by rewrite Hs|].
  rewrite <- Hc. unfold v_contents. rewrite Hs.
  apply list_fmap_ext. intros i k Hk.
  apply lookup_seq in Hk as [-> Hk]. cbn [Nat.add].
  unfold v_slot, value_at. f_equal. apply Hp.
  assert (N.of_nat i < persistent_vector.capacity_ v) as Hlt by lia.
  revert Hlt. generalize (N.of_nat i). intros j Hj. footprint.
Qed.

(** What a queue shows is read from its own footprint only. *)
Lemma q_models_outside (q : persistent_queue.handle) a n m m' (s : @fifo T) :
  0 < persistent_queue.capacity_ q →
  same_outside a n m m' →
  persistent_queue.storage_ q + q_footprint q ≤ a
  ∨ a + n ≤ persistent_queue.storage_ q →
  q_models q m s →
  q_signature q m' = q_signature q m ∧ q_models q m' s.
Proof.
  intros Hc0 [Hl Hp] Hd ((Hs & Hb & He & Heq) & Hold & Hc).
  assert (q_signature q m' = q_signature q m) as Hsig'.
  { unfold q_signature, word_at. f_equal. apply Hp. footprint. }
  assert (q_begin q m' = q_begin q m) as Hb'.
  { unfold q_begin, word_at. f_equal. apply Hp. footprint. }
  assert (q_end q m' = q_end q m) as He'.
  { unfold q_end, word_at. f_equal. apply Hp. footprint. }
  assert (q_size q m' = q_size q m) as Hs'.
  { unfold q_size, word_at. f_equal. apply Hp. footprint. }
  split; [done|]. split; [|split].
  - unfold q_invariant. by rewrite Hs', Hb', He'.
  - by rewrite Hb'.
  - rewrite <- Hc. unfold q_contents. rewrite Hs', Hb'.
    apply list_fmap_ext. intros i k _.
    unfold q_slot, value_at. f_equal. apply Hp.
    assert ((q_begin q m + N.of_nat k) mod persistent_queue.capacity_ q
            < persistent_queue.capacity_ q) as Hlt
      by (apply N.mod_upper_bound; lia).
    revert Hlt.
    generalize ((q_begin q m + N.of_nat k) mod persistent_queue.capacity_ q).
    intros j Hj. footprint.
Qed.

End views_outside.

Section side_by_side.
Import EEPROM Platform.
Context {T : Type} {HT : Storable T} {U : Type} {HU : Storable U}.

(** X15.  Calls on a queue do not disturb a vector (of any element type)
    whose footprint is disjoint from the queue's: the vector keeps its
    signature, size and values. *)
Theorem q_run_keeps_disjoint_vector
    (q : persistent_queue.handle) (v : persistent_vector.handle)
    (m : buffer) (s s' : @fifo T) (l : list U) cs rs :
  q_wf (T:=T) q m → q_models q m s →
  persistent_vector.storage_ v + v_footprint (T:=U) v
  ≤ persistent_queue.storage_ q
  ∨ persistent_queue.storage_ q + q_footprint (T:=T) q
    ≤ persistent_vector.storage_ v →
  v_models v m l →
  fifo_run (persistent_queue.capacity_ q) s cs = Some (rs, s') →
  ∃ m', q_run q cs m = Some (rs, m')
        ∧ q_models q m' s'
        ∧ v_signature v m' = v_signature v m
        ∧ v_models v m' l.
Proof.
  intros Hwf Hm Hd Hv Hrun.
  destruct (q_run_confined q cs m s rs s' Hwf Hm Hrun)
    as (m' & Hrun' & _ & Hm' & Hout).
  destruct (v_models_outside v _ _ m m' l Hout Hd Hv) as [Hsig Hv'].
  by exists m'.
Qed.

(** X16.  Calls on a vector do not disturb a queue (of any element type)
    whose footprint is disjoint from the vector's: the queue keeps its
    signature, indices and queued values. *)
Theorem v_run_keeps_disjoint_queue
    (q : persistent_queue.handle) (v : persistent_vector.handle)
    (m : buffer) (s : @fifo T) (l l' : list U) cs rs :
  v_wf (T:=U) v m → v_models v m l →
  0 < persistent_queue.capacity_ q →
  persistent_queue.storage_ q + q_footprint (T:=T) q
  ≤ persistent_vector.storage_ v
  ∨ persistent_vector.storage_ v + v_footprint (T:=U) v
    ≤ persistent_queue.storage_ q →
  q_models q m s →
  vec_run (persistent_vector.capacity_ v) l cs = Some (rs, l') →
  ∃ m', v_run v cs m = Some (rs, m')
        ∧ v_models v m' l'
        ∧ q_signature q m' = q_signature q m
        ∧ q_models q m' s.
Proof.
  intros Hwf Hm Hc0 Hd Hq Hrun.
  destruct (v_run_refines v cs m l rs l' Hwf Hm Hrun)
    as (m' & Hrun' & _ & Hm' & Hout).
  destruct (q_models_outside q _ _ m m' s Hc0 Hout Hd Hq) as [Hsig Hq'].
  by exists m'.
Qed.

(** X17.  Initialising a region writes its header and nothing else: the
    queue's constructor changes no byte outside the 16 header bytes, the
    vector's none outside the 8 header bytes, so the slots keep whatever
    bytes they held. *)
Theorem init_writes_header_only
    (q : persistent_queue.handle) (v : persistent_vector.handle)
    (mq mv : buffer) :
  q_header_fits q mq → q_signature q mq ≠ persistent_queue.SIGNATURE →
  v_header_fits v mv → v_signature v mv ≠ persistent_vector.SIGNATURE →
  (∃ mq', persistent_queue.persistent_queue
            (persistent_queue.storage_ q) (persistent_queue.capacity_ q) mq
          = Some (q, mq')
          ∧ same_outside (persistent_queue.storage_ q) 16 mq mq'
          ∧ ∀ i, q_slot (T:=T) q mq' i = q_slot q mq i)
  ∧ (∃ mv', persistent_vector.persistent_vector
              (persistent_vector.storage_ v) (persistent_vector.capacity_ v) mv
            = Some (v, mv')
            ∧ same_outside (persistent_vector.storage_ v) 8 mv mv'
            ∧ ∀ i, v_slot (T:=U) v mv' i = v_slot v mv i).
Proof.
  intros Hqh Hqs Hvh Hvs. split.
  - destruct (q_mount_init q mq Hqh Hqs) as (mq' & Hrun & Hl & _ & _ & _ & _ & Hfr).
    exists mq'. split; [done|]. split.
    + split; [done|]. intros b k Hd. apply Hfr. bounds.
    + intros i. unfold q_slot, value_at. f_equal. apply Hfr. bounds.
  - destruct (v_mount_init v mv Hvh Hvs) as (mv' & Hrun & Hl & _ & _ & Hfr).
    exists mv'. split; [done|]. split.
    + split; [done|]. intros b k Hd. apply Hfr. bounds.
    + intros i. unfold v_slot, value_at. f_equal. apply Hfr. bounds.
Qed.

End side_by_side.

(** * Beyond the claims: concrete runs *)

Section coverage_examples.
Import EEPROM Platform.

Lemma q_size_counts_items_witness :
  ∃ m', q_run (queue_at 0 2) [Push x07; Push x08; Pop] (magic ++ blank 14)
        = Some ([Pushed true; Pushed true; Popped true], m')
        ∧ persistent_queue.size (queue_at 0 2) m' = Some (1, m')
        ∧ persistent_queue.empty (queue_at 0 2) m' = Some (false, m')
        ∧ persistent_queue.full (queue_at 0 2) m' = Some (false, m').
Proof.
  apply (q_size_counts_items (queue_at 0 2) (magic ++ blank 14)
           {| oldest := 0; items := [] |} {| oldest := 1; items := [x08] |}
           [Push x07; Push x08; Pop]
           [Pushed true; Pushed true; Popped true]); by_computation.
Defined.

Lemma q_full_after_capacity_pushes_witness :
  ∃ m', q_run (queue_at 0 2) (push_all [x07; x08]) (magic ++ blank 14)
        = Some ([Pushed true; Pushed true], m')
        ∧ persistent_queue.full (queue_at 0 2) m' = Some (true, m')
        ∧ ∀ x : byte, persistent_queue.push (queue_at 0 2) x m'
                      = Some (false, m').
Proof.
  apply (q_full_after_capacity_pushes (queue_at 0 2) (magic ++ blank 14)
           [x07; x08]); by_computation.
Defined.

(** A blank region at offset 2, and a region that already holds a queue
    (one value, [begin] at 1) followed by two foreign bytes. *)
Lemma q_storage_size_suffices_witness :
  (∃ m1 m',
     persistent_queue.persistent_queue 2 2 (blank 22) = Some (queue_at 2 2, m1)
     ∧ q_run (queue_at 2 2) [Push x07; Front; Pop] m1
       = Some ([Pushed true; Fronted x07; Popped true], m')
     ∧ same_outside 2 (persistent_queue.storage_size (T:=byte) 2) (blank 22) m')
  ∧ (∃ m1 m',
       persistent_queue.persistent_queue 0 2
         (magic ++ [x01; x00; x00; x00; x00; x00; x00; x00;
                    x01; x00; x00; x00; x07; x08; xaa; xbb])
       = Some (queue_at 0 2, m1)
       ∧ q_run (queue_at 0 2) [Push x09; Front; Pop; Front] m1
         = Some ([Pushed true; Fronted x08; Popped true; Fronted x09], m')
       ∧ same_outside 0 (persistent_queue.storage_size (T:=byte) 2)
           (magic ++ [x01; x00; x00; x00; x00; x00; x00; x00;
                      x01; x00; x00; x00; x07; x08; xaa; xbb]) m').
Proof.
  split.
  - apply (q_storage_size_suffices (queue_at 2 2) (blank 22)
             {| oldest := 0; items := [] |} {| oldest := 1; items := [] |}
             [Push x07; Front; Pop]
             [Pushed true; Fronted x07; Popped true]);
      [by_computation | by_computation | left; by_computation | by_computation].
  - apply (q_storage_size_suffices (queue_at 0 2)
             (magic ++ [x01; x00; x00; x00; x00; x00; x00; x00;
                        x01; x00; x00; x00; x07; x08; xaa; xbb])
             {| oldest := 1; items := [x08] |} {| oldest := 0; items := [x09] |}
             [Push x09; Front; Pop; Front]
             [Pushed true; Fronted x08; Popped true; Fronted x09]);
      [by_computation | by_computation | | by_computation].
    right. split; [by_computation|]. left. by_computation.
Defined.

Lemma q_short_buffer_push_fails_witness :
  persistent_queue.push (queue_at 0 2) x08
    (magic ++ [x00; x00; x00; x00; x01; x00; x00; x00;
               x01; x00; x00; x00; x07]) = None.
Proof.
  apply (q_short_buffer_push_fails (queue_at 0 2)
           (magic ++ [x00; x00; x00; x00; x01; x00; x00; x00;
                      x01; x00; x00; x00; x07]) x08); by_computation.
Defined.

Lemma q_restart_is_invisible_witness :
  ∃ m', (let* r1 := q_run (queue_at 0 2) [Push x07; Push x08] in
         let* q' := q_restart (queue_at 0 2) in
         let* r2 := q_run q' [Front; Pop; Front] in
         ret (r1 ++ r2)) (magic ++ blank 14)
        = Some ([Pushed true; Pushed true; Fronted x07; Popped true;
                 Fronted x08], m')
        ∧ q_run (queue_at 0 2) [Push x07; Push x08; Front; Pop; Front]
            (magic ++ blank 14)
          = Some ([Pushed true; Pushed true; Fronted x07; Popped true;
                   Fronted x08], m')
        ∧ q_models (queue_at 0 2) m' {| oldest := 1; items := [x08] |}.
Proof.
  apply (q_restart_is_invisible (queue_at 0 2) (magic ++ blank 14)
           {| oldest := 0; items := [] |}
           {| oldest := 0; items := [x07; x08] |}
           {| oldest := 1; items := [x08] |}
           [Push x07; Push x08] [Front; Pop; Front]
           [Pushed true; Pushed true] [Fronted x07; Popped true; Fronted x08]);
    by_computation.
Defined.

Lemma q_pop_writes_begin_and_size_witness :
  ∃ m', persistent_queue.pop (queue_at 0 2)
          (magic ++ [x00; x00; x00; x00; x01; x00; x00; x00;
                     x01; x00; x00; x00; x07; x00])
        = Some (true, m')
        ∧ (∀ b n, b + n ≤ 0 + persistent_queue.begin_ofs
                  ∨ persistent_queue.data 0 ≤ b
                  ∨ (0 + persistent_queue.end_ofs ≤ b
                     ∧ b + n ≤ 0 + persistent_queue.size_ofs) →
                  peek m' b n
                  = peek (magic ++ [x00; x00; x00; x00; x01; x00; x00; x00;
                                    x01; x00; x00; x00; x07; x00]) b n)
        ∧ q_slot (queue_at 0 2) m' 0 = x07.
Proof.
  refine (q_pop_writes_begin_and_size (T:=byte) (queue_at 0 2)
            (magic ++ [x00; x00; x00; x00; x01; x00; x00; x00;
                       x01; x00; x00; x00; x07; x00]) _ _); by_computation.
Defined.

Lemma q_zero_capacity_inert_witness :
  persistent_queue.empty (queue_at 0 0) (magic ++ blank 12)
  = Some (true, magic ++ blank 12)
  ∧ persistent_queue.full (queue_at 0 0) (magic ++ blank 12)
    = Some (true, magic ++ blank 12)
  ∧ (∀ x : byte, persistent_queue.push (queue_at 0 0) x (magic ++ blank 12)
                 = Some (false, magic ++ blank 12))
  ∧ persistent_queue.pop (queue_at 0 0) (magic ++ blank 12)
    = Some (false, magic ++ blank 12).
Proof.
  apply (q_zero_capacity_inert (T:=byte) (queue_at 0 0) (blank 16));
    [by_computation..|].
  apply reach_mount; by_computation.
Defined.

Lemma q_increment_modular_witness :
  ∃ m', persistent_queue.increment (queue_at 0 2) 4
          (magic ++ [x01; x00; x00; x00; x01; x00; x00; x00;
                     x00; x00; x00; x00; x07; x08])
        = Some (tt, m')
        ∧ word_at m' 4 = 0
        ∧ word_at m' 4 < 2
        ∧ same_outside 4 4
            (magic ++ [x01; x00; x00; x00; x01; x00; x00; x00;
                       x00; x00; x00; x00; x07; x08]) m'.
Proof.
  apply (q_increment_modular (queue_at 0 2)
           (magic ++ [x01; x00; x00; x00; x01; x00; x00; x00;
                      x00; x00; x00; x00; x07; x08]) 4); by_computation.
Defined.

Lemma v_refines_bounded_list_witness :
  ∃ m', v_run (vector_at 0 2)
          [PushBack x07; At 0; Size; PushBack x08; Full; PushBack x09;
           PopBack; Empty]
          (magic ++ blank 6)
        = Some ([PushedBack true; Got x07; SizeIs 1; PushedBack true;
                 FullIs true; PushedBack false; PoppedBack true;
                 EmptyIs false], m')
        ∧ v_models (vector_at 0 2) m' [x07].
Proof.
  apply (v_refines_bounded_list (vector_at 0 2) (magic ++ blank 6) [] [x07]
           [PushBack x07; At 0; Size; PushBack x08; Full; PushBack x09;
            PopBack; Empty]); by_computation.
Defined.

(** A blank region at offset 2, and a region that already holds a vector
    (one value) followed by a foreign byte. *)
Lemma v_storage_size_suffices_witness :
  (∃ m1 m',
     persistent_vector.persistent_vector 2 2 (blank 14) = Some (vector_at 2 2, m1)
     ∧ v_run (vector_at 2 2) [PushBack x07; PushBack x08; PopBack] m1
       = Some ([PushedBack true; PushedBack true; PoppedBack true], m')
     ∧ same_outside 2 (persistent_vector.storage_size (T:=byte) 2) (blank 14) m')
  ∧ (∃ m1 m',
       persistent_vector.persistent_vector 0 2
         (magic ++ [x01; x00; x00; x00; x07; x00; xaa])
       = Some (vector_at 0 2, m1)
       ∧ v_run (vector_at 0 2) [PushBack x08; At 1; PopBack; At 0] m1
         = Some ([PushedBack true; Got x08; PoppedBack true; Got x07], m')
       ∧ same_outside 0 (persistent_vector.storage_size (T:=byte) 2)
           (magic ++ [x01; x00; x00; x00; x07; x00; xaa]) m').
Proof.
  split.
  - apply (v_storage_size_suffices (vector_at 2 2) (blank 14) [] [x07]
             [PushBack x07; PushBack x08; PopBack]);
      [by_computation | by_computation | left; by_computation | by_computation].
  - apply (v_storage_size_suffices (vector_at 0 2)
             (magic ++ [x01; x00; x00; x00; x07; x00; xaa]) [x07] [x07]
             [PushBack x08; At 1; PopBack; At 0]);
      [by_computation | by_computation | right; by_computation | by_computation].
Defined.

Lemma v_short_buffer_push_back_fails_witness :
  persistent_vector.push_back (vector_at 0 2) x08
    (magic ++ [x01; x00; x00; x00; x07]) = None.
Proof.
  apply (v_short_buffer_push_back_fails (vector_at 0 2)
           (magic ++ [x01; x00; x00; x00; x07]) x08); by_computation.
Defined.

Lemma v_restart_is_invisible_witness :
  ∃ m', (let* r1 := v_run (vector_at 0 2) [PushBack x07; PushBack x08] in
         let* v' := v_restart (vector_at 0 2) in
         let* r2 := v_run v' [At 1; PopBack; Size] in
         ret (r1 ++ r2)) (magic ++ blank 6)
        = Some ([PushedBack true; PushedBack true; Got x08; PoppedBack true;
                 SizeIs 1], m')
        ∧ v_run (vector_at 0 2)
            [PushBack x07; PushBack x08; At 1; PopBack; Size]
            (magic ++ blank 6)
          = Some ([PushedBack true; PushedBack true; Got x08; PoppedBack true;
                   SizeIs 1], m')
        ∧ v_models (vector_at 0 2) m' [x07].
Proof.
  apply (v_restart_is_invisible (vector_at 0 2) (magic ++ blank 6)
           [] [x07; x08] [x07]
           [PushBack x07; PushBack x08] [At 1; PopBack; Size]
           [PushedBack true; PushedBack true]
           [Got x08; PoppedBack true; SizeIs 1]); by_computation.
Defined.

Lemma v_pop_back_leaves_value_witness :
  ∃ m', persistent_vector.pop_back (vector_at 0 2)
          (magic ++ [x02; x00; x00; x00; x07; x08])
        = Some (true, m')
        ∧ v_models (vector_at 0 2) m' [x07]
        ∧ persistent_vector.size (vector_at 0 2) m' = Some (1, m')
        ∧ persistent_vector.subscript (vector_at 0 2) 1 m' = Some (x08, m').
Proof.
  apply (v_pop_back_leaves_value (vector_at 0 2)
           (magic ++ [x02; x00; x00; x00; x07; x08]) [x07] x08);
    by_computation.
Defined.

Lemma v_zero_capacity_inert_witness :
  persistent_vector.empty (vector_at 0 0) (magic ++ blank 4)
  = Some (true, magic ++ blank 4)
  ∧ persistent_vector.full (vector_at 0 0) (magic ++ blank 4)
    = Some (true, magic ++ blank 4)
  ∧ (∀ x : byte, persistent_vector.push_back (vector_at 0 0) x (magic ++ blank 4)
                 = Some (false, magic ++ blank 4))
  ∧ persistent_vector.pop_back (vector_at 0 0) (magic ++ blank 4)
    = Some (false, magic ++ blank 4).
Proof.
  apply (v_zero_capacity_inert (T:=byte) (vector_at 0 0) (blank 8));
    [by_computation..|].
  apply v_reach_mount; by_computation.
Defined.

(** A queue of bytes at offset 0 and a vector of two-byte values right
    behind it, at offset 18. *)
Lemma q_run_keeps_disjoint_vector_witness :
  ∃ m', q_run (queue_at 0 2) [Push x01; Push x02; Pop]
          ((magic ++ blank 14) ++ magic ++ [x01; x00; x00; x00; x07; x08; x00; x00])
        = Some ([Pushed true; Pushed true; Popped true], m')
        ∧ q_models (queue_at 0 2) m' {| oldest := 1; items := [x02] |}
        ∧ v_signature (vector_at 18 2) m'
          = v_signature (vector_at 18 2)
              ((magic ++ blank 14)
               ++ magic ++ [x01; x00; x00; x00; x07; x08; x00; x00])
        ∧ v_models (vector_at 18 2) m' [(x07, x08)].
Proof.
  apply (q_run_keeps_disjoint_vector (T:=byte) (U:=byte * byte)
           (queue_at 0 2) (vector_at 18 2)
           ((magic ++ blank 14)
            ++ magic ++ [x01; x00; x00; x00; x07; x08; x00; x00])
           {| oldest := 0; items := [] |} {| oldest := 1; items := [x02] |}
           [(x07, x08)] [Push x01; Push x02; Pop]
           [Pushed true; Pushed true; Popped true]);
    [by_computation| by_computation | right; by_computation
    | by_computation | by_computation].
Defined.

Lemma v_run_keeps_disjoint_queue_witness :
  ∃ m', v_run (vector_at 18 2) [PushBack (x09, x0a); At 1; PopBack]
          ((magic ++ [x00; x00; x00; x00; x01; x00; x00; x00;
                      x01; x00; x00; x00; x05; x00])
           ++ magic ++ [x01; x00; x00; x00; x07; x08; x00; x00])
        = Some ([PushedBack true; Got (x09, x0a); PoppedBack true], m')
        ∧ v_models (vector_at 18 2) m' [(x07, x08)]
        ∧ q_signature (queue_at 0 2) m'
          = q_signature (queue_at 0 2)
              ((magic ++ [x00; x00; x00; x00; x01; x00; x00; x00;
                          x01; x00; x00; x00; x05; x00])
               ++ magic ++ [x01; x00; x00; x00; x07; x08; x00; x00])
        ∧ q_models (queue_at 0 2) m' {| oldest := 0; items := [x05] |}.
Proof.
  apply (v_run_keeps_disjoint_queue (T:=byte) (U:=byte * byte)
           (queue_at 0 2) (vector_at 18 2)
           ((magic ++ [x00; x00; x00; x00; x01; x00; x00; x00;
                       x01; x00; x00; x00; x05; x00])
            ++ magic ++ [x01; x00; x00; x00; x07; x08; x00; x00])
           {| oldest := 0; items := [x05] |}
           [(x07, x08)] [(x07, x08)]
           [PushBack (x09, x0a); At 1; PopBack]
           [PushedBack true; Got (x09, x0a); PoppedBack true]);
    [by_computation| by_computation | by_computation | left; by_computation
    | by_computation | by_computation].
Defined.

Lemma init_writes_header_only_witness :
  (∃ mq', persistent_queue.persistent_queue 0 2
            [x13; x37; xc0; xde; xff; xff; xff; xff; xaa; xbb; xcc; xdd;
             x01; x02; x03; x04; x55; x66]
          = Some (queue_at 0 2, mq')
          ∧ same_outside 0 16
              [x13; x37; xc0; xde; xff; xff; xff; xff; xaa; xbb; xcc; xdd;
               x01; x02; x03; x04; x55; x66] mq'
          ∧ ∀ i, q_slot (T:=byte) (queue_at 0 2) mq' i
                 = q_slot (queue_at 0 2)
                     [x13; x37; xc0; xde; xff; xff; xff; xff; xaa; xbb; xcc;
                      xdd; x01; x02; x03; x04; x55; x66] i)
  ∧ (∃ mv', persistent_vector.persistent_vector 0 2
              [x13; x37; xc0; xde; xff; xff; xff; xff; x55; x66]
            = Some (vector_at 0 2, mv')
            ∧ same_outside 0 8
                [x13; x37; xc0; xde; xff; xff; xff; xff; x55; x66] mv'
            ∧ ∀ i, v_slot (T:=byte) (vector_at 0 2) mv' i
                   = v_slot (vector_at 0 2)
                       [x13; x37; xc0; xde; xff; xff; xff; xff; x55; x66] i).
Proof.
  apply (init_writes_header_only (T:=byte) (U:=byte)
           (queue_at 0 2) (vector_at 0 2)); by_computation.
Defined.

End coverage_examples.
